(** * Completion-time solver ([src/repairCars.cpp])

    A shallow embedding of [Solution::check] and [Solution::repairCars]
    together with the properties of the capacity predicate and of the
    binary search that drives it.

    - [long long] and [int] values are integers of [Z] together with a
      range predicate; where the source adds or subtracts, the result is
      wrapped around as on a two's complement machine.
    - [sqrt] works on IEEE 754 binary64 numbers.  They are the
      [spec_float]s of the standard library with [prec = 53] and
      [emax = 1024], and [sqrt] is [SFsqrt]: the result is computed, not
      postulated.
    - Executions that C++ leaves undefined (division by zero, conversion
      of a NaN to an integer, reading a variable that was never
      assigned) end in a [Fault]. *)

From Stdlib Require Import ZArith List Lia Bool Permutation.
From Stdlib Require Import Floats.SpecFloat.
From Equations Require Import Equations.
From Equations.Prop Require Import Logic.
Import ListNotations.
Local Open Scope Z_scope.

(** ** Machine integers *)

Module Int.
(** [int]: 32 bits, signed. *)
Definition min_signed : Z := - 2 ^ 31.
Definition max_signed : Z := 2 ^ 31 - 1.
Definition in_range (z : Z) : Prop := min_signed <= z <= max_signed.

(** The representative of [z] modulo [2^32] in the signed range. *)
Definition wrap (z : Z) : Z := (z + 2 ^ 31) mod 2 ^ 32 - 2 ^ 31.
End Int.

Module LL.
(** [long long int]: 64 bits, signed ([#define ll long long int]). *)
Definition min_signed : Z := - 2 ^ 63.
Definition max_signed : Z := 2 ^ 63 - 1.
Definition modulus : Z := 2 ^ 64.
Definition in_range (z : Z) : Prop := min_signed <= z <= max_signed.
Definition in_rangeb (z : Z) : bool :=
  (min_signed <=? z) && (z <=? max_signed).

(** The representative of [z] modulo [2^64] in the signed range. *)
Definition wrap (z : Z) : Z := (z + 2 ^ 63) mod modulus - 2 ^ 63.

Definition add (a b : Z) : Z := wrap (a + b).
Definition sub (a b : Z) : Z := wrap (a - b).
End LL.

(** ** Outcomes of an execution *)

Inductive fault : Type :=
| DivisionByZero        (* [time / nums[i]] with [nums[i] = 0] *)
| DivisionOverflow      (* [LLONG_MIN / -1] *)
| FloatToIntegerUB      (* NaN, infinity or a value out of range converted to [ll] *)
| UninitializedRead     (* [return ans] although [ans] was never assigned *)
| LoopBudget.           (* the iteration budget of the model ran out *)

Inductive result (A : Type) : Type :=
| Ok (a : A)
| Fault (f : fault).
Arguments Ok {A} a.
Arguments Fault {A} f.

Definition bind {A B : Type} (r : result A) (k : A -> result B) : result B :=
  match r with
  | Ok a => k a
  | Fault f => Fault f
  end.

Notation "x <- r ;; k" := (bind r (fun x => k))
  (at level 61, r at next level, right associativity).

(** ** Doubles *)

Module Double.
Definition prec : Z := 53.
Definition emax : Z := 1024.

Definition double : Type := spec_float.

(** Integer to [double] conversion: round to nearest, ties to even. *)
Definition of_ll (z : Z) : double := binary_normalize prec emax z 0 false.

(** [sqrt] of [<cmath>]: the correctly rounded square root. *)
Definition sqrt (x : double) : double := SFsqrt prec emax x.

(** [double] to [ll] conversion: the fractional part is discarded; the
    conversion is undefined when the truncated value is not
    representable. *)
Definition to_ll (x : double) : result Z :=
  match x with
  | S754_zero _ => Ok 0
  | S754_finite sgn m ex =>
      let t := Z.shiftl (Zpos m) ex in
      let v := if sgn then - t else t in
      if LL.in_rangeb v then Ok v else Fault FloatToIntegerUB
  | S754_infinity _ | S754_nan => Fault FloatToIntegerUB
  end.
End Double.

(** ** [check] *)

(** [time / nums[i]] on [ll]: the quotient truncates toward zero. *)
Definition ll_div (a b : Z) : result Z :=
  if b =? 0 then Fault DivisionByZero
  else if (a =? LL.min_signed) && (b =? -1) then Fault DivisionOverflow
  else Ok (Z.quot a b).

(** [ll c = sqrt(time / nums[i]);] *)
Definition capacity (time rank : Z) : result Z :=
  q <- ll_div time rank ;;
  Double.to_ll (Double.sqrt (Double.of_ll q)).

(** The loop of [check] over [nums[i]], [i = 0 .. n-1] with
    [n = nums.size()], followed by [return req <= 0].  The parameter [req]
    is the local copy that the loop decrements.  The recursion visits the
    whole list: it is the loop of the source for the vectors whose size is
    a value of [int], the type of [n] (see [check_n] and [check_n_check]);
    the statements below that depend on every rank being visited carry
    the hypothesis [Z.of_nat (length nums) <= Int.max_signed]. *)
Fixpoint check (nums : list Z) (req time : Z) : result bool :=
  match nums with
  | [] => Ok (req <=? 0)
  | r :: rest =>
      c <- capacity time r ;;
      let req := LL.sub req c in
      if req <=? 0 then Ok true else check rest req time
  end.

(** [check] with [int n = nums.size()] written out: the size is converted
    to [int], and the loop visits [nums[0]] to [nums[n-1]], that is no
    rank at all when [n <= 0]. *)
Definition check_n (nums : list Z) (req time : Z) : result bool :=
  let n := Int.wrap (Z.of_nat (length nums)) in
  check (firstn (Z.to_nat n) nums) req time.

(** ** [repairCars] *)

(** [ll s = 0, e = 1e15;]: the literal [1e15] is the double [10^15], which
    converts to the same [ll]. *)
Definition TIME_CEILING : Z := 10 ^ 15.

(** The local variables of [repairCars]; [ans] is declared without an
    initial value. *)
Record window : Type := Window { w_s : Z; w_e : Z; w_ans : option Z }.

(** [ll mid = (s+e)/2;] *)
Definition midpoint (w : window) : Z := Z.quot (LL.add (w_s w) (w_e w)) 2.

(** One iteration of the [while] loop. *)
Definition body (ranks : list Z) (cars : Z) (w : window) : result window :=
  let mid := midpoint w in
  poss <- check ranks cars mid ;;
  if (poss : bool)
  then Ok {| w_s := w_s w; w_e := LL.sub mid 1; w_ans := Some mid |}
  else Ok {| w_s := LL.add mid 1; w_e := w_e w; w_ans := w_ans w |}.

(** [while (s <= e) { ... }] with a budget of iterations. *)
Fixpoint while (fuel : nat) (ranks : list Z) (cars : Z) (w : window)
  : result window :=
  if w_s w <=? w_e w then
    match fuel with
    | O => Fault LoopBudget
    | S fuel' => w' <- body ranks cars w ;; while fuel' ranks cars w'
    end
  else Ok w.

Definition initial : window :=
  {| w_s := 0; w_e := TIME_CEILING; w_ans := None |}.

(** [return ans;] *)
Definition return_ans (w : window) : result Z :=
  match w_ans w with
  | Some t => Ok t
  | None => Fault UninitializedRead
  end.

(** The budget of the model: the window [0 .. 10^15] is halved at every
    iteration, so 64 iterations are more than the loop can use (see
    [while_budget]). *)
Definition budget : nat := 64.

Definition repairCars (ranks : list Z) (cars : Z) : result Z :=
  w <- while budget ranks cars initial ;;
  return_ans w.

(** ** Integer description of the double computations

    The functions below say in integer arithmetic what [Double.of_ll],
    [Double.sqrt] and [Double.to_ll] compute on the integers the program
    feeds them; [ll_sqrt_correct] proves them equal to the computation
    on [spec_float]. *)

(** Number of binary digits of a positive integer. *)
Definition digits (x : Z) : Z := Z.log2 x + 1.

(** [x / 2^k] rounded to the nearest integer, ties to even. *)
Definition round_even (x k : Z) : Z :=
  let m := x / 2 ^ k in
  let l := x mod 2 ^ k in
  if (2 ^ k <? 2 * l) || ((2 ^ k =? 2 * l) && Z.odd m) then m + 1 else m.

(** The double nearest to the integer [x]: [x] itself when it has at most
    53 digits, else [x] rounded to 53 significant digits. *)
Definition nearest (x : Z) : Z :=
  let k := digits x - 53 in
  if k <=? 0 then x else round_even x k * 2 ^ k.

(** The integer nearest to the square root of [M] (a square root is never
    half-way between two integers). *)
Definition round_sqrt (M : Z) : Z :=
  let q := Z.sqrt M in if q <? M - q * q then q + 1 else q.

(** [Double.sqrt] keeps 53 significant digits of the root of [y]: its
    result is a multiple of [2^-j] for [j = sqrt_scale y]. *)
Definition sqrt_scale (y : Z) : Z := 53 - (digits y + 1) / 2.

(** The integer part of the correctly rounded square root of [y]. *)
Definition sqrt_rn (y : Z) : Z :=
  let j := sqrt_scale y in round_sqrt (y * 4 ^ j) / 2 ^ j.

(** What [(ll) sqrt((double) x)] evaluates to for [0 <= x]. *)
Definition ll_sqrt (x : Z) : Z :=
  if x =? 0 then 0 else sqrt_rn (nearest x).

(** The second half of [binary_round_aux]: the rounded mantissa is
    renormalised and packed. *)
Definition pack (m1 e : Z) : spec_float :=
  let '(mrs, e') := shr_fexp Double.prec Double.emax m1 e loc_Exact in
  match shr_m mrs with
  | Z0 => S754_zero false
  | Zpos m =>
      if e' <=? Double.emax - Double.prec
      then S754_finite false m e' else S754_infinity false
  | Zneg _ => S754_nan
  end.

(** [f] is a positive double with a full 53-digit mantissa whose value is
    the integer [y]. *)
Definition represents (f : spec_float) (y : Z) : Prop :=
  exists mx ex, f = S754_finite false mx ex /\ 2 ^ 52 <= Zpos mx < 2 ^ 53 /\
                -52 <= ex <= 11 /\ Zpos mx * 2 ^ (ex + 52) = y * 2 ^ 52.

(** ** Inputs and reference predicates *)

(** A worker rank: a positive [int]. *)
Definition valid_rank (r : Z) : Prop := 1 <= r <= Int.max_signed.

(** The first rank, if there is one, is a worker rank; the loop of [check]
    reads no other rank when it returns at its first iteration. *)
Definition first_rank_valid (ranks : list Z) : Prop :=
  match ranks with
  | [] => True
  | r :: _ => valid_rank r
  end.

(** A candidate time passed to [check]: a non-negative [ll]. *)
Definition valid_time (t : Z) : Prop := 0 <= t <= LL.max_signed.

(** A requirement passed to [check]: an [ll] from which a capacity (at most
    [2^32]) can be subtracted without leaving the type.  Every [int], and
    so every value of [cars], qualifies. *)
Definition valid_requirement (req : Z) : Prop :=
  LL.min_signed + 2 ^ 32 <= req <= LL.max_signed.

(** The capacities that [check] computes, accumulated over all workers. *)
Definition accumulated (ranks : list Z) (time : Z) : Z :=
  fold_right Z.add 0 (map (fun r => ll_sqrt (Z.quot time r)) ranks).

(** The capacity of a worker as the specification defines it:
    [floor(sqrt(time / rank))], the quotient truncated first. *)
Definition floor_sqrt_capacity (time rank : Z) : Z :=
  Z.sqrt (Z.quot time rank).

(** The reference predicate: sum the capacities of all workers, then
    compare the sum with the requirement. *)
Definition total_capacity (ranks : list Z) (time : Z) : Z :=
  fold_right Z.add 0 (map (floor_sqrt_capacity time) ranks).

Definition feasible (ranks : list Z) (req time : Z) : bool :=
  req <=? total_capacity ranks time.

(** Width of the search window, the measure of the loop. *)
Definition width (w : window) : Z := w_e w - w_s w + 1.

(** The windows the loop can reach. *)
Definition window_ok (w : window) : Prop :=
  0 <= w_s w /\ w_s w <= w_e w + 1 /\ w_e w <= TIME_CEILING.

(** Loop invariant of the search for a predicate [p] on candidate times:
    the time just below the window is infeasible, and [ans] holds the
    feasible time just above it once one has been seen. *)
Definition search_inv (p : Z -> bool) (w : window) : Prop :=
  window_ok w /\
  (w_s w = 0 \/ p (w_s w - 1) = false) /\
  match w_ans w with
  | None => w_e w = TIME_CEILING
  | Some a => a = w_e w + 1 /\ a <= TIME_CEILING /\ p a = true
  end.

(** The loop again, by well-founded recursion on the width of the window
    and without a budget.  Each recursive call is justified by the window
    getting narrower. *)
Equations? search_wf (ranks : list Z) (cars : Z) (w : window)
  (Hok : window_ok w) : result window by wf (Z.to_nat (width w)) lt :=
  search_wf ranks cars w Hok with inspect (w_s w <=? w_e w) := {
    | exist _ false _ => Ok w
    | exist _ true Hse with inspect (body ranks cars w) := {
        | exist _ (Fault f) _ => Fault f
        | exist _ (Ok w') Hb => search_wf ranks cars w' _ } }.
Proof.
  all: apply Z.leb_le in Hse; destruct Hok as (H0 & H1 & H2);
    unfold TIME_CEILING in H2;
    assert (W : forall z, - 2 ^ 63 <= z <= 2 ^ 63 - 1 -> LL.wrap z = z)
      by (intros z Hz; unfold LL.wrap, LL.modulus;
          rewrite Z.mod_small by lia; lia);
    unfold body, midpoint, LL.add, LL.sub in Hb;
    rewrite (W (w_s w + w_e w)), Z.quot_div_nonneg in Hb by lia;
    assert (Hmid : w_s w <= (w_s w + w_e w) / 2 <= w_e w)
      by (Z.to_euclidean_division_equations; lia);
    rewrite !W in Hb by lia;
    destruct (check ranks cars ((w_s w + w_e w) / 2)) as [[|]|];
    cbn [bind] in Hb; try discriminate; injection Hb as <-;
    unfold window_ok, width, TIME_CEILING; cbn [w_s w_e]; lia.
Qed.

(** * Properties *)

(** ** Doubles: from [spec_float] to integer arithmetic *)

Lemma digits2_pos_size (p : positive) : digits2_pos p = Pos.size p.
Proof. induction p; simpl; congruence. Qed.

Lemma Zdigits2_pos (p : positive) : Zdigits2 (Zpos p) = digits (Zpos p).
Proof.
  unfold digits; simpl. rewrite digits2_pos_size.
  destruct p; simpl; lia.
Qed.

Lemma digits_bounds (x : Z) : 0 < x -> 2 ^ (digits x - 1) <= x < 2 ^ digits x.
Proof.
  intros Hx. unfold digits. replace (Z.log2 x + 1 - 1) with (Z.log2 x) by lia.
  apply Z.log2_spec. exact Hx.
Qed.

Lemma digits_unique (x n : Z) : 2 ^ (n - 1) <= x < 2 ^ n -> 0 < x -> digits x = n.
Proof.
  intros H Hx. unfold digits.
  assert (0 < n).
  { destruct (Z.lt_trichotomy n 0) as [Hn|[Hn|Hn]]; try lia.
    - rewrite (Z.pow_neg_r 2 n) in H by lia. lia.
    - subst. simpl in H. lia. }
  enough (Z.log2 x = n - 1) by lia.
  apply Z.log2_unique; [lia|]. replace (Z.succ (n - 1)) with n by lia. exact H.
Qed.

Lemma digits_pos (x : Z) : 0 < x -> 1 <= digits x.
Proof. intros Hx. unfold digits. pose proof (Z.log2_nonneg x). lia. Qed.

Lemma digits_le (x y : Z) : 0 < x -> x <= y -> digits x <= digits y.
Proof. intros Hx Hxy. unfold digits. pose proof (Z.log2_le_mono x y Hxy). lia. Qed.

Lemma digits_lt_pow2 (x n : Z) : 0 < x -> x < 2 ^ n -> digits x <= n.
Proof. intros Hx H. unfold digits. apply Z.log2_lt_pow2 in H; lia. Qed.


Lemma iter_pos_iter {A : Type} (f : A -> A) (n : positive) (x : A) :
  iter_pos f n x = Pos.iter f x n.
Proof.
  revert x. induction n as [n IH|n IH|]; intros x; simpl.
  - rewrite !IH. rewrite <- !Pos.iter_swap. reflexivity.
  - rewrite !IH. reflexivity.
  - reflexivity.
Qed.

Lemma iter_xO_pow2 (p d : positive) :
  Zpos (Pos.iter xO p d) = Zpos p * 2 ^ Zpos d.
Proof.
  induction d as [|d IH] using Pos.peano_ind.
  - simpl. lia.
  - rewrite Pos.iter_succ, Pos2Z.inj_xO, IH, Pos2Z.inj_succ, Z.pow_succ_r by lia. lia.
Qed.

Lemma loc_of_shr_record_of_loc (m : Z) (l : location) :
  loc_of_shr_record (shr_record_of_loc m l) = l.
Proof. destruct l as [|[ | | ]]; reflexivity. Qed.

Lemma shr_m_of_loc (m : Z) (l : location) : shr_m (shr_record_of_loc m l) = m.
Proof. destruct l as [|[ | | ]]; reflexivity. Qed.

Lemma fexp_normal (e : Z) : -1021 <= e -> fexp Double.prec Double.emax e = e - 53.
Proof. intros H. unfold fexp, SpecFloat.emin, Double.prec, Double.emax. lia. Qed.


Lemma binary_round_aux_pack (mx ex : Z) (lx : location) :
  binary_round_aux Double.prec Double.emax false mx ex lx =
  let '(mrs, e') := shr_fexp Double.prec Double.emax mx ex lx in
  pack (round_nearest_even (shr_m mrs) (loc_of_shr_record mrs)) e'.
Proof. reflexivity. Qed.


Lemma pack_normal (m1 e : Z) :
  2 ^ 52 <= m1 <= 2 ^ 53 -> -1074 <= e <= 970 ->
  pack m1 e = if m1 <? 2 ^ 53 then S754_finite false (Z.to_pos m1) e
              else S754_finite false (Z.to_pos (2 ^ 52)) (e + 1).
Proof.
  intros Hm He. unfold pack, shr_fexp.
  destruct (Z.ltb_spec m1 (2 ^ 53)) as [Hlt|Hge].
  - assert (Hd1 : digits m1 = 53) by (apply digits_unique; lia).
    destruct m1 as [|m1|m1]; try lia.
    rewrite Zdigits2_pos, Hd1, fexp_normal by lia.
    replace (53 + e - 53 - e) with 0 by lia.
    cbn [shr shr_record_of_loc shr_m].
    replace (e <=? Double.emax - Double.prec) with true
      by (symmetry; apply Z.leb_le; unfold Double.emax, Double.prec; lia).
    reflexivity.
  - assert (Hm1 : m1 = 2 ^ 53) by lia.
    rewrite Hm1.
    change (Zdigits2 (2 ^ 53)) with 54. rewrite fexp_normal by lia.
    replace (54 + e - 53 - e) with 1 by lia.
    cbn [shr shr_record_of_loc iter_pos].
    change (shr_1 {| shr_m := 2 ^ 53; shr_r := false; shr_s := false |})
      with {| shr_m := 2 ^ 52; shr_r := false; shr_s := false |}.
    cbn [shr_m].
    replace (e + 1 <=? Double.emax - Double.prec) with true
      by (symmetry; apply Z.leb_le; unfold Double.emax, Double.prec; lia).
    reflexivity.
Qed.

(** Rounding a mantissa that already has 53 digits. *)
Lemma binary_round_aux_canonical (m : Z) (e : Z) (l : location) :
  2 ^ 52 <= m < 2 ^ 53 -> -1074 <= e <= 970 ->
  binary_round_aux Double.prec Double.emax false m e l =
  pack (round_nearest_even m l) e.
Proof.
  intros Hm He. rewrite binary_round_aux_pack. unfold shr_fexp.
  assert (Hd : digits m = 53) by (apply digits_unique; lia).
  destruct m as [|m|m]; try lia.
  rewrite Zdigits2_pos, Hd, fexp_normal by lia.
  replace (53 + e - 53 - e) with 0 by lia.
  cbn [shr]. rewrite loc_of_shr_record_of_loc, shr_m_of_loc. reflexivity.
Qed.

(** *** Shifting right with a round bit and a sticky bit *)

Lemma shr_1_nonneg (m : Z) (r s : bool) :
  0 <= m ->
  shr_1 {| shr_m := m; shr_r := r; shr_s := s |} =
  {| shr_m := m / 2; shr_r := Z.odd m; shr_s := r || s |}.
Proof.
  intros Hm. rewrite <- Z.div2_div.
  destruct m as [|[p|p|]|]; try lia; reflexivity.
Qed.

Lemma mod_pow2_succ (x k : Z) :
  0 <= k ->
  x mod 2 ^ (k + 1) = x mod 2 ^ k + 2 ^ k * Z.b2z (Z.testbit x k).
Proof.
  intros Hk. rewrite Z.pow_add_r, Z.pow_1_r by lia.
  assert (Hp : 0 < 2 ^ k) by (apply Z.pow_pos_nonneg; lia).
  rewrite Z.rem_mul_r by lia.
  rewrite Z.testbit_spec' by lia. reflexivity.
Qed.

Lemma shr_iter (x : Z) (k : positive) :
  0 <= x ->
  Pos.iter shr_1 {| shr_m := x; shr_r := false; shr_s := false |} k =
  {| shr_m := x / 2 ^ Zpos k;
     shr_r := Z.testbit x (Zpos k - 1);
     shr_s := negb (x mod 2 ^ (Zpos k - 1) =? 0) |}.
Proof.
  intros Hx. induction k as [|k IH] using Pos.peano_ind.
  - cbn [Pos.iter]. rewrite shr_1_nonneg by lia.
    change (Z.pos 1 - 1) with 0. rewrite Z.bit0_odd, Z.pow_0_r, Z.mod_1_r, Z.pow_1_r.
    reflexivity.
  - rewrite Pos.iter_succ, IH.
    assert (Hp : 0 < 2 ^ Zpos k) by (apply Z.pow_pos_nonneg; lia).
    rewrite shr_1_nonneg by (apply Z.div_pos; lia).
    rewrite Pos2Z.inj_succ.
    replace (Z.succ (Zpos k) - 1) with (Zpos k) by lia.
    f_equal.
    + unfold Z.succ. rewrite Z.pow_add_r, Z.pow_1_r by lia.
      rewrite Z.div_div by lia. reflexivity.
    + rewrite Z.testbit_odd, Z.shiftr_div_pow2 by lia. reflexivity.
    + replace (2 ^ Zpos k) with (2 ^ ((Zpos k - 1) + 1)) by (f_equal; lia).
      rewrite mod_pow2_succ by lia.
      assert (0 < 2 ^ (Zpos k - 1)) by (apply Z.pow_pos_nonneg; lia).
      pose proof (Z.mod_pos_bound x (2 ^ (Zpos k - 1)) ltac:(lia)).
      destruct (Z.testbit x (Zpos k - 1)); cbn [Z.b2z orb].
      * symmetry. apply negb_true_iff, Z.eqb_neq. lia.
      * f_equal. f_equal. lia.
Qed.

Lemma round_shr (x : Z) (k : positive) :
  0 <= x ->
  let mrs := Pos.iter shr_1 {| shr_m := x; shr_r := false; shr_s := false |} k in
  round_nearest_even (shr_m mrs) (loc_of_shr_record mrs) = round_even x (Zpos k).
Proof.
  intros Hx. cbv zeta. rewrite shr_iter by exact Hx. unfold round_even.
  cbn [shr_m].
  set (m := x / 2 ^ Zpos k).
  replace (2 ^ Zpos k) with (2 ^ ((Zpos k - 1) + 1)) by (f_equal; lia).
  rewrite mod_pow2_succ by lia.
  rewrite Z.pow_add_r, Z.pow_1_r by lia.
  assert (0 < 2 ^ (Zpos k - 1)) by (apply Z.pow_pos_nonneg; lia).
  pose proof (Z.mod_pos_bound x (2 ^ (Zpos k - 1)) ltac:(lia)) as Hl.
  set (l0 := x mod 2 ^ (Zpos k - 1)) in *.
  set (h := 2 ^ (Zpos k - 1)) in *.
  rewrite <- Z.negb_even.
  destruct (Z.testbit x (Zpos k - 1)); cbn [Z.b2z];
    destruct (Z.eqb_spec l0 0) as [E|E]; cbn [negb loc_of_shr_record round_nearest_even].
  - replace (h * 2 <? 2 * (l0 + h * 1)) with false by (symmetry; apply Z.ltb_ge; lia).
    replace (h * 2 =? 2 * (l0 + h * 1)) with true by (symmetry; apply Z.eqb_eq; lia).
    cbn [orb andb]. destruct (Z.even m); reflexivity.
  - replace (h * 2 <? 2 * (l0 + h * 1)) with true by (symmetry; apply Z.ltb_lt; lia).
    reflexivity.
  - replace (h * 2 <? 2 * (l0 + h * 0)) with false by (symmetry; apply Z.ltb_ge; lia).
    replace (h * 2 =? 2 * (l0 + h * 0)) with false by (symmetry; apply Z.eqb_neq; lia).
    reflexivity.
  - replace (h * 2 <? 2 * (l0 + h * 0)) with false by (symmetry; apply Z.ltb_ge; lia).
    replace (h * 2 =? 2 * (l0 + h * 0)) with false by (symmetry; apply Z.eqb_neq; lia).
    reflexivity.
Qed.

(** *** Conversion of a positive integer *)

Lemma pack_represents (m1 e y : Z) :
  2 ^ 52 <= m1 <= 2 ^ 53 -> -52 <= e <= 10 ->
  m1 * 2 ^ (e + 52) = y * 2 ^ 52 ->
  represents (pack m1 e) y.
Proof.
  intros Hm He Hy. rewrite pack_normal by lia.
  destruct (Z.ltb_spec m1 (2 ^ 53)) as [Hlt|Hge].
  - exists (Z.to_pos m1), e. rewrite Z2Pos.id by lia. repeat split; try lia.
  - exists (Z.to_pos (2 ^ 52)), (e + 1). rewrite Z2Pos.id by lia.
    repeat split; try lia.
    rewrite <- Hy. replace m1 with (2 ^ 53) by lia.
    replace (e + 1 + 52) with (1 + (e + 52)) by lia.
    rewrite (Z.pow_add_r 2 1) by lia. lia.
Qed.

Lemma round_even_range (x k : Z) :
  x / 2 ^ k <= round_even x k <= x / 2 ^ k + 1.
Proof.
  unfold round_even.
  destruct ((2 ^ k <? 2 * (x mod 2 ^ k)) || ((2 ^ k =? 2 * (x mod 2 ^ k)) && Z.odd (x / 2 ^ k))); lia.
Qed.

Lemma div_pow2_digits (x k : Z) :
  0 < x -> 0 <= k -> k < digits x ->
  2 ^ (digits x - k - 1) <= x / 2 ^ k < 2 ^ (digits x - k).
Proof.
  intros Hx Hk Hkd. pose proof (digits_bounds x Hx) as [Hlo Hhi].
  assert (Hp : 0 < 2 ^ k) by (apply Z.pow_pos_nonneg; lia).
  split.
  - apply Z.div_le_lower_bound; [lia|].
    rewrite <- Z.pow_add_r by lia. replace (k + (digits x - k - 1)) with (digits x - 1) by lia.
    exact Hlo.
  - apply Z.div_lt_upper_bound; [lia|].
    rewrite <- Z.pow_add_r by lia. replace (k + (digits x - k)) with (digits x) by lia.
    exact Hhi.
Qed.

Lemma of_ll_represents (x : Z) :
  0 < x < 2 ^ 63 -> represents (Double.of_ll x) (nearest x).
Proof.
  intros Hx. destruct x as [|p|p]; try lia.
  pose proof (digits_bounds (Zpos p) ltac:(lia)) as Hb.
  pose proof (digits_pos (Zpos p) ltac:(lia)) as Hd1.
  pose proof (digits_lt_pow2 (Zpos p) 63 ltac:(lia) ltac:(lia)) as Hd63.
  unfold Double.of_ll, binary_normalize, binary_round, nearest.
  change (Zpos (digits2_pos p)) with (Zdigits2 (Zpos p)).
  rewrite Zdigits2_pos, Z.add_0_r, fexp_normal by lia.
  set (n := digits (Zpos p)) in *.
  unfold shl_align. rewrite Z.sub_0_r.
  destruct (n - 53) as [|k|d] eqn:Hk.
  - (* exactly 53 digits *)
    cbn [Z.leb Z.compare].
    rewrite binary_round_aux_canonical by (replace n with 53 in Hb by lia; lia).
    cbn [round_nearest_even].
    apply pack_represents; try lia. replace n with 53 in Hb by lia. lia.
  - (* more than 53 digits: the low [k] bits are rounded away *)
    replace (Zpos k <=? 0) with false by (symmetry; apply Z.leb_gt; lia).
    rewrite binary_round_aux_pack. unfold shr_fexp.
    rewrite Zdigits2_pos, Z.add_0_r, fexp_normal by (fold n; lia).
    fold n. rewrite Z.sub_0_r, Hk.
    cbn [shr shr_record_of_loc]. rewrite iter_pos_iter.
    rewrite (round_shr (Zpos p) k) by lia.
    pose proof (round_even_range (Zpos p) (Zpos k)) as Hr.
    pose proof (div_pow2_digits (Zpos p) (Zpos k) ltac:(lia) ltac:(lia) ltac:(fold n; lia)) as Hq.
    fold n in Hq. replace (n - Zpos k - 1) with 52 in Hq by lia.
    replace (n - Zpos k) with 53 in Hq by lia.
    apply pack_represents; try lia.
    rewrite (Z.add_comm 0), Z.add_0_r.
    rewrite Z.pow_add_r by lia. lia.
  - (* fewer than 53 digits: the mantissa is shifted left *)
    replace (Zneg d <=? 0) with true by reflexivity.
    assert (Hmz : 2 ^ 52 <= Zpos (Pos.iter xO p d) < 2 ^ 53).
    { rewrite iter_xO_pow2.
      assert (0 < 2 ^ Zpos d) by (apply Z.pow_pos_nonneg; lia).
      replace 52 with ((n - 1) + Zpos d) by lia.
      replace 53 with (n + Zpos d) by lia.
      rewrite !Z.pow_add_r by lia. nia. }
    rewrite binary_round_aux_canonical by lia.
    cbn [round_nearest_even].
    apply pack_represents; try lia.
    rewrite iter_xO_pow2, <- Z.mul_assoc, <- Z.pow_add_r by lia.
    f_equal. f_equal. lia.
Qed.

(** *** The rounded square root in integer arithmetic *)

Lemma round_sqrt_ge (M C : Z) :
  0 <= M -> 1 <= C -> (C <= round_sqrt M <-> C * C - C + 1 <= M).
Proof.
  intros HM HC. unfold round_sqrt.
  pose proof (Z.sqrt_spec M HM) as Hs. cbv zeta in Hs.
  set (q := Z.sqrt M) in *.
  assert (0 <= q) by apply Z.sqrt_nonneg.
  destruct (Z.ltb_spec q (M - q * q)); split; intros; nia.
Qed.

Lemma div_ge_iff (a b c : Z) : 0 < b -> (c <= a / b <-> c * b <= a).
Proof.
  intros Hb. split; intros H.
  - pose proof (Z.mul_div_le a b Hb). nia.
  - apply Z.div_le_lower_bound; lia.
Qed.

Lemma pow4 (j : Z) : 4 ^ j = 2 ^ j * 2 ^ j.
Proof. change 4 with (2 * 2). rewrite Z.pow_mul_l. reflexivity. Qed.

Lemma scaled_round_sqrt_ge (y j c : Z) :
  0 <= y -> 0 <= j -> 1 <= c ->
  (c <= round_sqrt (y * 4 ^ j) / 2 ^ j <-> (c * c - y) * 2 ^ j < c).
Proof.
  intros Hy Hj Hc.
  assert (Hp : 0 < 2 ^ j) by (apply Z.pow_pos_nonneg; lia).
  rewrite div_ge_iff by exact Hp.
  rewrite round_sqrt_ge by nia.
  rewrite pow4. set (t := 2 ^ j) in *. clearbody t. split; intros; nia.
Qed.

Lemma sqrt_scale_range (y : Z) : 0 < y <= 2 ^ 64 -> 20 <= sqrt_scale y <= 52.
Proof.
  intros Hy. unfold sqrt_scale.
  pose proof (digits_pos y ltac:(lia)).
  assert (digits y <= 65).
  { destruct (Z.eq_dec y (2 ^ 64)) as [->|]; [reflexivity|].
    pose proof (digits_lt_pow2 y 64 ltac:(lia) ltac:(lia)). lia. }
  Z.to_euclidean_division_equations; lia.
Qed.

(** The characteristic property of [sqrt_rn]. *)
Lemma sqrt_rn_ge (y c : Z) :
  0 < y <= 2 ^ 64 -> 1 <= c ->
  (c <= sqrt_rn y <-> (c * c - y) * 2 ^ sqrt_scale y < c).
Proof.
  intros Hy Hc. unfold sqrt_rn. cbv zeta.
  pose proof (sqrt_scale_range y Hy).
  apply scaled_round_sqrt_ge; lia.
Qed.

Lemma sqrt_rn_nonneg (y : Z) : 0 < y <= 2 ^ 64 -> 0 <= sqrt_rn y.
Proof.
  intros Hy. unfold sqrt_rn. cbv zeta.
  pose proof (sqrt_scale_range y Hy).
  apply Z.div_pos; [|apply Z.pow_pos_nonneg; lia].
  unfold round_sqrt. pose proof (Z.sqrt_nonneg (y * 4 ^ sqrt_scale y)).
  destruct (_ <? _); lia.
Qed.

Lemma sqrt_rn_le_pow32 (y : Z) : 0 < y <= 2 ^ 64 -> sqrt_rn y <= 2 ^ 32.
Proof.
  intros Hy. apply Z.lt_succ_r, Z.nle_gt. intros H.
  apply sqrt_rn_ge in H; try lia.
  pose proof (sqrt_scale_range y ltac:(lia)).
  assert (1 <= 2 ^ sqrt_scale y) by (apply (Z.pow_le_mono_r 2 0); lia).
  set (t := 2 ^ sqrt_scale y) in *. clearbody t.
  assert (2 ^ 33 * 1 <= (Z.succ (2 ^ 32) * Z.succ (2 ^ 32) - y) * t)
    by (apply Z.mul_le_mono_nonneg; lia).
  lia.
Qed.

(** Below [2^52] the rounded root has the same integer part as the exact
    one. *)
Lemma sqrt_rn_exact (y : Z) : 0 < y < 2 ^ 52 -> sqrt_rn y = Z.sqrt y.
Proof.
  intros Hy.
  pose proof (Z.sqrt_spec y ltac:(lia)) as Hs. cbv zeta in Hs.
  pose proof (Z.sqrt_nonneg y) as Hk.
  set (k := Z.sqrt y) in *.
  pose proof (sqrt_rn_nonneg y ltac:(lia)) as H0.
  assert (Hlo : k <= sqrt_rn y).
  { destruct (Z.eq_dec k 0) as [->|]; [lia|].
    apply sqrt_rn_ge; try lia.
    assert (0 < 2 ^ sqrt_scale y).
    { apply Z.pow_pos_nonneg; [lia|]. pose proof (sqrt_scale_range y ltac:(lia)). lia. }
    nia. }
  assert (Hhi : ~ (k + 1 <= sqrt_rn y)).
  { intros H. apply sqrt_rn_ge in H; try lia.
    assert (Hj : 27 <= sqrt_scale y).
    { unfold sqrt_scale.
      pose proof (digits_lt_pow2 y 52 ltac:(lia) ltac:(lia)).
      Z.to_euclidean_division_equations; lia. }
    assert (2 ^ 27 <= 2 ^ sqrt_scale y) by (apply Z.pow_le_mono_r; lia).
    assert (k < 2 ^ 26) by nia.
    nia. }
  lia.
Qed.

(** *** [sqrt] and the conversion back *)

Lemma represents_bounds (f : spec_float) (y : Z) :
  represents f y -> 0 < y < 2 ^ 64.
Proof.
  intros (mx & ex & _ & Hm & He & Hy).
  assert (0 < 2 ^ (ex + 52) <= 2 ^ 63).
  { split; [apply Z.pow_pos_nonneg; lia|apply Z.pow_le_mono_r; lia]. }
  set (t := 2 ^ (ex + 52)) in *. clearbody t.
  assert (Zpos mx * t <= 2 ^ 53 * 2 ^ 63) by (apply Z.mul_le_mono_nonneg; lia).
  assert (Zpos mx * t < 2 ^ 53 * 2 ^ 63) by nia.
  split; [nia|].
  change (2 ^ 53 * 2 ^ 63) with (2 ^ 64 * 2 ^ 52) in *. nia.
Qed.

Lemma represents_digits (mx : positive) (ex y : Z) :
  2 ^ 52 <= Zpos mx < 2 ^ 53 -> -52 <= ex <= 11 ->
  Zpos mx * 2 ^ (ex + 52) = y * 2 ^ 52 ->
  digits y = 53 + ex.
Proof.
  intros Hm He Hy.
  assert (Ht : 0 < 2 ^ (ex + 52)) by (apply Z.pow_pos_nonneg; lia).
  assert (H1 : 2 ^ (ex + 53) = 2 * 2 ^ (ex + 52)).
  { replace (ex + 53) with (1 + (ex + 52)) by lia.
    rewrite Z.pow_add_r by lia. reflexivity. }
  apply digits_unique.
  - replace (53 + ex - 1) with (ex + 52) by lia.
    replace (53 + ex) with (ex + 53) by lia. rewrite H1.
    set (t := 2 ^ (ex + 52)) in *. clearbody t. nia.
  - set (t := 2 ^ (ex + 52)) in *. clearbody t. nia.
Qed.

Lemma sqrt_core (mx : positive) (ex : Z) :
  2 ^ 52 <= Zpos mx < 2 ^ 53 -> -52 <= ex <= 11 ->
  let j := 53 - (54 + ex) / 2 in
  let M := Zpos mx * 2 ^ (ex + 2 * j) in
  let q := Z.sqrt M in
  SFsqrt_core_binary Double.prec Double.emax (Zpos mx) ex =
    (q, - j,
     if M - q * q =? 0 then loc_Exact
     else loc_Inexact (if M - q * q <=? q then Lt else Gt)).
Proof.
  intros Hm He j M q.
  assert (Hj : 20 <= j <= 52) by (unfold j; Z.to_euclidean_division_equations; lia).
  assert (Hs : 52 <= ex + 2 * j <= 53) by (unfold j; Z.to_euclidean_division_equations; lia).
  unfold SFsqrt_core_binary.
  rewrite Zdigits2_pos.
  replace (digits (Zpos mx)) with 53 by (symmetry; apply digits_unique; lia).
  rewrite !Z.div2_div.
  replace (53 + ex + 1) with (54 + ex) by lia.
  rewrite fexp_normal by (Z.to_euclidean_division_equations; lia).
  rewrite Z.min_l by (Z.to_euclidean_division_equations; lia).
  replace ((54 + ex) / 2 - 53) with (- j) by (unfold j; lia).
  replace (ex - 2 * - j) with (ex + 2 * j) by lia.
  cbv zeta.
  assert (HM : (match ex + 2 * j with
                | 0 => Zpos mx
                | Zpos _ => Z.shiftl (Zpos mx) (ex + 2 * j)
                | Zneg _ => 0
                end) = M).
  { unfold M. destruct (ex + 2 * j) eqn:E; try lia.
    rewrite Z.shiftl_mul_pow2 by lia. reflexivity. }
  rewrite HM.
  pose proof (Z.sqrtrem_spec M) as Hspec.
  pose proof (Z.sqrtrem_sqrt M) as Hsq. fold q in Hsq.
  destruct (Z.sqrtrem M) as [q' r].
  cbn [fst] in Hsq. subst q'.
  assert (0 <= M) by (unfold M; apply Z.mul_nonneg_nonneg; [lia|apply Z.pow_nonneg; lia]).
  destruct (Hspec ltac:(lia)) as [HMq Hr].
  replace (M - q * q) with r by lia. reflexivity.
Qed.

Lemma sqrt_mantissa_range (mx : positive) (s : Z) :
  2 ^ 52 <= Zpos mx < 2 ^ 53 -> 52 <= s <= 53 ->
  2 ^ 52 <= Z.sqrt (Zpos mx * 2 ^ s) < 2 ^ 53.
Proof.
  intros Hm Hs.
  assert (HM : 2 ^ 52 * 2 ^ 52 <= Zpos mx * 2 ^ s < 2 ^ 53 * 2 ^ 53).
  { assert (2 ^ 52 <= 2 ^ s <= 2 ^ 53)
      by (split; apply Z.pow_le_mono_r; lia).
    set (t := 2 ^ s) in *. clearbody t. nia. }
  split.
  - apply Z.sqrt_le_square; lia.
  - apply Z.sqrt_lt_square; lia.
Qed.

Lemma round_location (M : Z) :
  0 <= M ->
  let q := Z.sqrt M in
  round_nearest_even q
    (if M - q * q =? 0 then loc_Exact
     else loc_Inexact (if M - q * q <=? q then Lt else Gt)) = round_sqrt M.
Proof.
  intros HM q. unfold round_sqrt. fold q.
  destruct (Z.eqb_spec (M - q * q) 0) as [E|E]; cbn [round_nearest_even].
  - rewrite E. pose proof (Z.sqrt_nonneg M). fold q in H.
    replace (q <? 0) with false by (symmetry; apply Z.ltb_ge; lia). reflexivity.
  - destruct (Z.leb_spec (M - q * q) q) as [L|L]; cbn [round_nearest_even].
    + replace (q <? M - q * q) with false by (symmetry; apply Z.ltb_ge; lia). reflexivity.
    + replace (q <? M - q * q) with true by (symmetry; apply Z.ltb_lt; lia). reflexivity.
Qed.

Lemma round_sqrt_range (M : Z) : Z.sqrt M <= round_sqrt M <= Z.sqrt M + 1.
Proof. unfold round_sqrt. destruct (_ <? _); lia. Qed.

(** [(ll) sqrt(f)] for a double [f] that holds the positive integer [y]. *)
Lemma to_ll_sqrt (f : spec_float) (y : Z) :
  represents f y -> Double.to_ll (Double.sqrt f) = Ok (sqrt_rn y).
Proof.
  intros Hrep. pose proof (represents_bounds f y Hrep) as Hy0.
  destruct Hrep as (mx & ex & -> & Hm & He & Hy).
  pose proof (represents_digits mx ex y Hm He Hy) as Hd.
  pose proof (sqrt_rn_nonneg y ltac:(lia)) as Hnn.
  pose proof (sqrt_rn_le_pow32 y ltac:(lia)) as H32.
  unfold sqrt_rn, sqrt_scale in *. rewrite Hd in *. cbv zeta in *.
  replace (53 + ex + 1) with (54 + ex) in * by lia.
  set (j := 53 - (54 + ex) / 2) in *.
  assert (Hj : 20 <= j <= 52) by (unfold j; Z.to_euclidean_division_equations; lia).
  assert (Hs : 52 <= ex + 2 * j <= 53) by (unfold j; Z.to_euclidean_division_equations; lia).
  assert (HM : Zpos mx * 2 ^ (ex + 2 * j) = y * 4 ^ j).
  { apply (Z.mul_reg_r _ _ (2 ^ 52)); [lia|].
    rewrite <- Z.mul_assoc, <- Z.pow_add_r by lia.
    replace (ex + 2 * j + 52) with ((ex + 52) + (j + j)) by lia.
    rewrite Z.pow_add_r, Z.mul_assoc, Hy by lia.
    rewrite pow4, Z.pow_add_r by lia. ring. }
  unfold Double.sqrt, SFsqrt.
  pose proof (sqrt_core mx ex Hm He) as Hcore. cbv zeta in Hcore. fold j in Hcore.
  rewrite Hcore. clear Hcore.
  rewrite HM in *.
  set (M := y * 4 ^ j) in *.
  assert (0 <= M) by (unfold M; apply Z.mul_nonneg_nonneg; [lia|apply Z.pow_nonneg; lia]).
  pose proof (sqrt_mantissa_range mx (ex + 2 * j) Hm Hs) as Hq. rewrite HM in Hq.
  rewrite binary_round_aux_canonical by lia.
  rewrite (round_location M) by lia.
  pose proof (round_sqrt_range M) as Hr.
  rewrite pack_normal by lia.
  assert (Hp : 0 < 2 ^ j) by (apply Z.pow_pos_nonneg; lia).
  destruct (Z.ltb_spec (round_sqrt M) (2 ^ 53)) as [Hlt|Hge]; unfold Double.to_ll.
  - rewrite Z2Pos.id by lia.
    rewrite Z.shiftl_div_pow2 by lia. rewrite Z.opp_involutive.
    replace (LL.in_rangeb (round_sqrt M / 2 ^ j)) with true; [reflexivity|].
    symmetry. unfold LL.in_rangeb, LL.min_signed, LL.max_signed.
    apply andb_true_iff; split; apply Z.leb_le; lia.
  - assert (Hr53 : round_sqrt M = 2 ^ 53) by lia. rewrite Hr53 in *.
    rewrite Z2Pos.id by lia.
    rewrite Z.shiftl_div_pow2 by lia.
    assert (Heq : 2 ^ 52 / 2 ^ (- (- j + 1)) = 2 ^ 53 / 2 ^ j).
    { replace (- (- j + 1)) with (j - 1) by lia.
      rewrite <- !Z.pow_sub_r by lia. f_equal. lia. }
    rewrite Heq.
    replace (LL.in_rangeb (2 ^ 53 / 2 ^ j)) with true; [reflexivity|].
    symmetry. unfold LL.in_rangeb, LL.min_signed, LL.max_signed.
    apply andb_true_iff; split; apply Z.leb_le; lia.
Qed.

(** *** [ll_sqrt] is what the program computes *)

Theorem ll_sqrt_correct (x : Z) :
  0 <= x < 2 ^ 63 ->
  Double.to_ll (Double.sqrt (Double.of_ll x)) = Ok (ll_sqrt x).
Proof.
  intros Hx. unfold ll_sqrt.
  destruct (Z.eqb_spec x 0) as [->|Hne]; [reflexivity|].
  apply to_ll_sqrt, of_ll_represents. lia.
Qed.

(** *** Properties of [nearest] *)

Lemma nearest_small (x : Z) : 0 < x < 2 ^ 53 -> nearest x = x.
Proof.
  intros Hx. unfold nearest.
  pose proof (digits_lt_pow2 x 53 ltac:(lia) ltac:(lia)).
  replace (digits x - 53 <=? 0) with true by (symmetry; apply Z.leb_le; lia).
  reflexivity.
Qed.

Lemma nearest_bounds (x : Z) :
  0 < x -> 2 ^ (digits x - 1) <= nearest x <= 2 ^ digits x.
Proof.
  intros Hx. unfold nearest. pose proof (digits_bounds x Hx) as Hb.
  destruct (Z.leb_spec (digits x - 53) 0) as [Hk|Hk]; [lia|].
  set (k := digits x - 53) in *.
  pose proof (round_even_range x k) as Hr.
  pose proof (div_pow2_digits x k Hx ltac:(lia) ltac:(lia)) as Hq.
  replace (digits x - k - 1) with 52 in Hq by lia.
  replace (digits x - k) with 53 in Hq by lia.
  assert (E1 : 2 ^ (digits x - 1) = 2 ^ 52 * 2 ^ k).
  { rewrite <- Z.pow_add_r by lia. f_equal. lia. }
  assert (E2 : 2 ^ digits x = 2 ^ 53 * 2 ^ k).
  { rewrite <- Z.pow_add_r by lia. f_equal. lia. }
  rewrite E1, E2.
  assert (0 < 2 ^ k) by (apply Z.pow_pos_nonneg; lia).
  split; apply Z.mul_le_mono_nonneg_r; lia.
Qed.

Lemma round_even_mono (x x' k : Z) :
  0 <= x <= x' -> 0 <= k -> round_even x k <= round_even x' k.
Proof.
  intros Hx Hk. unfold round_even.
  assert (Ht : 0 < 2 ^ k) by (apply Z.pow_pos_nonneg; lia).
  pose proof (Z.div_mod x (2 ^ k) ltac:(lia)) as E.
  pose proof (Z.div_mod x' (2 ^ k) ltac:(lia)) as E'.
  pose proof (Z.mod_pos_bound x (2 ^ k) Ht) as L.
  pose proof (Z.mod_pos_bound x' (2 ^ k) Ht) as L'.
  pose proof (Z.div_le_mono x x' (2 ^ k) Ht ltac:(lia)) as Hm.
  set (t := 2 ^ k) in *. clearbody t.
  set (m := x / t) in *. set (m' := x' / t) in *.
  set (l := x mod t) in *. set (l' := x' mod t) in *.
  clearbody m m' l l'.
  destruct (Z.eq_dec m m') as [<-|Hne].
  - assert (l <= l') by nia.
    destruct (Z.ltb_spec t (2 * l)), (Z.ltb_spec t (2 * l')),
      (Z.eqb_spec t (2 * l)), (Z.eqb_spec t (2 * l')), (Z.odd m);
      cbn [orb andb]; lia.
  - destruct ((t <? 2 * l) || (t =? 2 * l) && Z.odd m),
      ((t <? 2 * l') || (t =? 2 * l') && Z.odd m'); lia.
Qed.

Lemma nearest_mono (x x' : Z) : 0 < x <= x' -> nearest x <= nearest x'.
Proof.
  intros Hx.
  pose proof (digits_le x x' ltac:(lia) ltac:(lia)) as Hd.
  pose proof (nearest_bounds x ltac:(lia)) as Hb.
  pose proof (nearest_bounds x' ltac:(lia)) as Hb'.
  destruct (Z.eq_dec (digits x) (digits x')) as [E|NE].
  - unfold nearest. rewrite <- E.
    destruct (Z.leb_spec (digits x - 53) 0) as [Hk|Hk]; [lia|].
    apply Z.mul_le_mono_nonneg_r; [apply Z.pow_nonneg; lia|].
    apply round_even_mono; lia.
  - assert (2 ^ digits x <= 2 ^ (digits x' - 1)) by (apply Z.pow_le_mono_r; lia).
    destruct (Z.leb_spec (digits x - 53) 0) as [Hk|Hk].
    + unfold nearest at 1.
      replace (digits x - 53 <=? 0) with true by (symmetry; apply Z.leb_le; lia).
      pose proof (digits_bounds x ltac:(lia)). lia.
    + lia.
Qed.

Lemma nearest_range (x : Z) : 0 < x < 2 ^ 63 -> 0 < nearest x <= 2 ^ 63.
Proof.
  intros Hx. pose proof (nearest_bounds x ltac:(lia)) as Hb.
  pose proof (digits_lt_pow2 x 63 ltac:(lia) ltac:(lia)).
  pose proof (digits_pos x ltac:(lia)).
  assert (0 < 2 ^ (digits x - 1)) by (apply Z.pow_pos_nonneg; lia).
  assert (2 ^ digits x <= 2 ^ 63) by (apply Z.pow_le_mono_r; lia).
  lia.
Qed.

(** *** Properties of [sqrt_rn] and [ll_sqrt] *)

Lemma sqrt_scale_antimono (y y' : Z) :
  0 < y <= y' -> sqrt_scale y' <= sqrt_scale y.
Proof.
  intros Hy. unfold sqrt_scale.
  pose proof (digits_le y y' ltac:(lia) ltac:(lia)).
  Z.to_euclidean_division_equations; lia.
Qed.

Lemma sqrt_rn_mono (y y' : Z) :
  0 < y <= y' -> y' <= 2 ^ 64 -> sqrt_rn y <= sqrt_rn y'.
Proof.
  intros Hy Hy'.
  pose proof (sqrt_rn_nonneg y' ltac:(lia)) as Hnn.
  destruct (Z.le_gt_cases (sqrt_rn y) 0) as [H0|H0]; [lia|].
  set (c := sqrt_rn y) in *.
  assert (Hc : c <= sqrt_rn y) by (unfold c; lia).
  apply sqrt_rn_ge in Hc; try lia.
  apply sqrt_rn_ge; try lia.
  pose proof (sqrt_scale_antimono y y' Hy) as Hj.
  pose proof (sqrt_scale_range y' ltac:(lia)) as Hr'.
  assert (0 < 2 ^ sqrt_scale y' <= 2 ^ sqrt_scale y).
  { split; [apply Z.pow_pos_nonneg; lia|apply Z.pow_le_mono_r; lia]. }
  set (t := 2 ^ sqrt_scale y) in *. set (t' := 2 ^ sqrt_scale y') in *.
  clearbody t t' c.
  destruct (Z.le_gt_cases (c * c - y') 0); [nia|].
  assert ((c * c - y') * t' <= (c * c - y) * t) by (apply Z.mul_le_mono_nonneg; lia).
  lia.
Qed.

Theorem ll_sqrt_exact (x : Z) : 0 <= x < 2 ^ 52 -> ll_sqrt x = Z.sqrt x.
Proof.
  intros Hx. unfold ll_sqrt.
  destruct (Z.eqb_spec x 0) as [->|Hne]; [reflexivity|].
  rewrite nearest_small by lia. apply sqrt_rn_exact. lia.
Qed.

Theorem ll_sqrt_range (x : Z) : 0 <= x < 2 ^ 63 -> 0 <= ll_sqrt x <= 2 ^ 32.
Proof.
  intros Hx. unfold ll_sqrt.
  destruct (Z.eqb_spec x 0) as [->|Hne]; [lia|].
  pose proof (nearest_range x ltac:(lia)).
  split; [apply sqrt_rn_nonneg|apply sqrt_rn_le_pow32]; lia.
Qed.

Theorem ll_sqrt_mono (x x' : Z) :
  0 <= x <= x' -> x' < 2 ^ 63 -> ll_sqrt x <= ll_sqrt x'.
Proof.
  intros Hx Hx'. unfold ll_sqrt.
  destruct (Z.eqb_spec x 0) as [->|Hne].
  - pose proof (ll_sqrt_range x' ltac:(lia)) as H. unfold ll_sqrt in H. lia.
  - destruct (Z.eqb_spec x' 0) as [->|Hne']; [lia|].
    pose proof (nearest_range x' ltac:(lia)).
    pose proof (nearest_range x ltac:(lia)).
    apply sqrt_rn_mono; [split; [lia|apply nearest_mono; lia]|lia].
Qed.

(** *** [capacity] *)

Lemma quot_range (time rank : Z) :
  0 <= time <= LL.max_signed -> 1 <= rank ->
  Z.quot time rank = time / rank /\ 0 <= time / rank <= time.
Proof.
  intros Ht Hr. rewrite Z.quot_div_nonneg by lia.
  split; [reflexivity|]. split; [apply Z.div_pos; lia|].
  apply Z.div_le_upper_bound; nia.
Qed.

Lemma capacity_eq (time rank : Z) :
  0 <= time <= LL.max_signed -> 1 <= rank ->
  capacity time rank = Ok (ll_sqrt (Z.quot time rank)).
Proof.
  intros Ht Hr. destruct (quot_range time rank Ht Hr) as [Hq Hb].
  unfold capacity, ll_div, LL.max_signed in *.
  replace (rank =? 0) with false by (symmetry; apply Z.eqb_neq; lia).
  replace (time =? LL.min_signed) with false
    by (symmetry; apply Z.eqb_neq; unfold LL.min_signed; lia).
  cbn [andb bind].
  apply ll_sqrt_correct. lia.
Qed.

(** ** [check] *)

Lemma wrap_in_range (z : Z) : LL.in_range z -> LL.wrap z = z.
Proof.
  unfold LL.in_range, LL.wrap, LL.min_signed, LL.max_signed, LL.modulus.
  intros H. rewrite Z.mod_small by lia. lia.
Qed.

Lemma accumulated_nonneg (ranks : list Z) (time : Z) :
  Forall valid_rank ranks -> valid_time time -> 0 <= accumulated ranks time.
Proof.
  intros Hr Ht. induction Hr as [|r rest Hr _ IH]; [cbn; lia|].
  unfold accumulated in *. cbn [map fold_right].
  unfold valid_rank, valid_time in *.
  destruct (quot_range time r ltac:(lia) ltac:(lia)) as [_ Hq].
  unfold LL.max_signed in *.
  pose proof (ll_sqrt_range (Z.quot time r)) as H.
  rewrite Z.quot_div_nonneg in * by lia. lia.
Qed.

(** The early exit does not change the result: [check] compares the
    requirement with the capacities accumulated over all workers. *)
Lemma check_accumulated (ranks : list Z) (req time : Z) :
  Forall valid_rank ranks -> valid_requirement req -> valid_time time ->
  check ranks req time = Ok (req <=? accumulated ranks time).
Proof.
  intros Hr. revert req. induction Hr as [|r rest Hr Hrest IH]; intros req Hreq Ht.
  - reflexivity.
  - cbn [check]. unfold valid_rank in Hr.
    rewrite capacity_eq by (unfold valid_time in Ht; lia). cbn [bind].
    unfold accumulated. cbn [map fold_right]. fold (accumulated rest time).
    pose proof (accumulated_nonneg rest time Hrest Ht) as Hacc.
    assert (Hq : 0 <= Z.quot time r < 2 ^ 63).
    { destruct (quot_range time r Ht ltac:(lia)) as [-> Hq].
      unfold valid_time, LL.max_signed in Ht. lia. }
    pose proof (ll_sqrt_range (Z.quot time r) Hq) as Hc.
    set (c := ll_sqrt (Z.quot time r)) in *.
    unfold LL.sub. unfold valid_requirement, LL.min_signed, LL.max_signed in Hreq.
    rewrite wrap_in_range
      by (unfold LL.in_range, LL.min_signed, LL.max_signed; lia).
    destruct (Z.leb_spec (req - c) 0) as [Hle|Hgt].
    + symmetry. f_equal. apply Z.leb_le. lia.
    + rewrite IH by (try assumption;
                     unfold valid_requirement, LL.min_signed, LL.max_signed; lia).
      f_equal. destruct (Z.leb_spec (req - c) (accumulated rest time));
        symmetry; [apply Z.leb_le|apply Z.leb_gt]; lia.
Qed.

Lemma accumulated_mono (ranks : list Z) (t t' : Z) :
  Forall valid_rank ranks -> 0 <= t <= t' -> t' <= LL.max_signed ->
  accumulated ranks t <= accumulated ranks t'.
Proof.
  intros Hr Ht Ht'. induction Hr as [|r rest Hr _ IH]; [cbn; lia|].
  unfold accumulated in *. cbn [map fold_right].
  unfold valid_rank, LL.max_signed in *.
  assert (ll_sqrt (Z.quot t r) <= ll_sqrt (Z.quot t' r)).
  { destruct (quot_range t r ltac:(unfold LL.max_signed; lia) ltac:(lia)) as [-> Hq].
    destruct (quot_range t' r ltac:(unfold LL.max_signed; lia) ltac:(lia)) as [-> Hq'].
    apply ll_sqrt_mono.
    - split; [lia|apply Z.div_le_mono; lia].
    - lia. }
  lia.
Qed.

Lemma accumulated_exact (ranks : list Z) (time : Z) :
  Forall valid_rank ranks -> 0 <= time < 2 ^ 52 ->
  accumulated ranks time = total_capacity ranks time.
Proof.
  intros Hr Ht. induction Hr as [|r rest Hr _ IH]; [reflexivity|].
  unfold accumulated, total_capacity in *. cbn [map fold_right].
  rewrite IH. f_equal. unfold floor_sqrt_capacity. apply ll_sqrt_exact.
  unfold valid_rank in Hr.
  destruct (quot_range time r ltac:(unfold LL.max_signed; lia) ltac:(lia)) as [-> Hq].
  lia.
Qed.

Lemma check_fault_kind (nums : list Z) (req time : Z) (f : fault) :
  check nums req time = Fault f ->
  f = DivisionByZero \/ f = DivisionOverflow \/ f = FloatToIntegerUB.
Proof.
  revert req. induction nums as [|r rest IH]; intros req; cbn [check]; [discriminate|].
  unfold capacity, ll_div.
  destruct (r =? 0); [cbn; intros [= <-]; auto|].
  destruct ((time =? LL.min_signed) && (r =? -1)); [cbn; intros [= <-]; auto|].
  cbn [bind].
  destruct (Double.to_ll _) as [c|f'] eqn:E; cbn [bind].
  - destruct (LL.sub req c <=? 0); [discriminate|apply IH].
  - intros [= <-]. unfold Double.to_ll in E.
    destruct (Double.sqrt _); try (injection E as <-; auto); try discriminate.
    destruct (LL.in_rangeb _); [discriminate|injection E as <-; auto].
Qed.

(** ** The binary search *)

Lemma midpoint_eq (w : window) :
  window_ok w -> w_s w <= w_e w ->
  midpoint w = (w_s w + w_e w) / 2 /\ w_s w <= midpoint w <= w_e w.
Proof.
  unfold window_ok, TIME_CEILING, midpoint, LL.add. intros (Hs & _ & He) Hse.
  rewrite wrap_in_range
    by (unfold LL.in_range, LL.min_signed, LL.max_signed; lia).
  rewrite Z.quot_div_nonneg by lia.
  split; [reflexivity|]. Z.to_euclidean_division_equations; lia.
Qed.

(** One iteration: the window is cut at [mid], on the side that [check]
    selects. *)
Lemma body_step (ranks : list Z) (cars : Z) (w w' : window) :
  window_ok w -> w_s w <= w_e w ->
  body ranks cars w = Ok w' ->
  let mid := midpoint w in
  (check ranks cars mid = Ok true /\
   w' = {| w_s := w_s w; w_e := mid - 1; w_ans := Some mid |}) \/
  (check ranks cars mid = Ok false /\
   w' = {| w_s := mid + 1; w_e := w_e w; w_ans := w_ans w |}).
Proof.
  intros Hok Hse Hb mid.
  destruct (midpoint_eq w Hok Hse) as [_ Hmid]. fold mid in Hmid.
  unfold window_ok, TIME_CEILING in Hok.
  unfold body in Hb. fold mid in Hb.
  destruct (check ranks cars mid) as [[|]|f]; cbn [bind] in Hb; [| |discriminate].
  - left. split; [reflexivity|]. injection Hb as <-. f_equal.
    unfold LL.sub. apply wrap_in_range.
    unfold LL.in_range, LL.min_signed, LL.max_signed; lia.
  - right. split; [reflexivity|]. injection Hb as <-. f_equal.
    unfold LL.add. apply wrap_in_range.
    unfold LL.in_range, LL.min_signed, LL.max_signed; lia.
Qed.

Lemma body_shrinks (ranks : list Z) (cars : Z) (w w' : window) :
  window_ok w -> w_s w <= w_e w ->
  body ranks cars w = Ok w' ->
  window_ok w' /\ 0 <= width w' /\ 2 * width w' <= width w.
Proof.
  intros Hok Hse Hb.
  destruct (midpoint_eq w Hok Hse) as [Hm Hmid].
  destruct (body_step ranks cars w w' Hok Hse Hb) as [[_ ->]|[_ ->]];
    unfold window_ok, width in *; cbn [w_s w_e]; rewrite Hm in *;
    Z.to_euclidean_division_equations; lia.
Qed.

Lemma body_fault (ranks : list Z) (cars : Z) (w : window) (f : fault) :
  body ranks cars w = Fault f -> f <> LoopBudget.
Proof.
  unfold body. destruct (check ranks cars (midpoint w)) as [[|]|f'] eqn:E;
    cbn [bind]; try discriminate.
  intros [= <-]. apply check_fault_kind in E.
  destruct E as [-> | [-> | ->]]; discriminate.
Qed.

(** A window of width below [2^fuel] is searched within [fuel]
    iterations, whatever [check] answers. *)
Lemma while_budget (ranks : list Z) (cars : Z) (fuel extra : nat) (w : window) :
  window_ok w -> width w < 2 ^ Z.of_nat fuel ->
  while (fuel + extra) ranks cars w = while fuel ranks cars w /\
  while fuel ranks cars w <> Fault LoopBudget.
Proof.
  revert w. induction fuel as [|fuel IH]; intros w Hok Hw.
  - assert (Hse : w_e w < w_s w) by (unfold width in Hw; cbn in Hw; lia).
    assert (E : (w_s w <=? w_e w) = false) by (apply Z.leb_gt; lia).
    split.
    + destruct extra; cbn [Nat.add while]; rewrite E; reflexivity.
    + cbn [while]. rewrite E. discriminate.
  - cbn [Nat.add while].
    destruct (Z.leb_spec (w_s w) (w_e w)) as [Hse|Hse]; [|split; [reflexivity|discriminate]].
    destruct (body ranks cars w) as [w'|f] eqn:Hb; cbn [bind].
    + destruct (body_shrinks ranks cars w w' Hok Hse Hb) as (Hok' & _ & Hw').
      apply IH; [exact Hok'|].
      rewrite Nat2Z.inj_succ, Z.pow_succ_r in Hw by lia. lia.
    + split; [reflexivity|]. intros [= ->]. exact (body_fault _ _ _ _ Hb eq_refl).
Qed.

Lemma initial_ok : window_ok initial /\ width initial < 2 ^ 50.
Proof. unfold window_ok, width, initial, TIME_CEILING; cbn [w_s w_e]. lia. Qed.

Section Search.
Variables (ranks : list Z) (cars : Z) (p : Z -> bool).
Hypothesis check_p :
  forall t, 0 <= t <= TIME_CEILING -> check ranks cars t = Ok (p t).

Lemma body_inv (w : window) :
  search_inv p w -> w_s w <= w_e w ->
  exists w', body ranks cars w = Ok w' /\ search_inv p w'.
Proof.
  intros (Hok & Hlo & Hhi) Hse.
  destruct (midpoint_eq w Hok Hse) as [_ Hmid].
  assert (Hc : check ranks cars (midpoint w) = Ok (p (midpoint w)))
    by (apply check_p; unfold window_ok in Hok; lia).
  destruct (body ranks cars w) as [w'|f] eqn:Hb.
  - exists w'. split; [reflexivity|].
    destruct (body_shrinks ranks cars w w' Hok Hse Hb) as (Hok' & _ & _).
    destruct (body_step ranks cars w w' Hok Hse Hb) as [[Hch ->]|[Hch ->]];
      rewrite Hc in Hch; injection Hch as Hpm;
      (split; [exact Hok'|]); cbn [w_s w_e w_ans].
    + split; [exact Hlo|]. unfold window_ok in Hok. repeat split; try lia. exact Hpm.
    + split; [right; rewrite Z.add_simpl_r; exact Hpm|exact Hhi].
  - exfalso. unfold body in Hb. rewrite Hc in Hb. cbn [bind] in Hb.
    destruct (p (midpoint w)); discriminate.
Qed.

Lemma while_inv (fuel : nat) (w : window) :
  search_inv p w -> width w < 2 ^ Z.of_nat fuel ->
  exists w', while fuel ranks cars w = Ok w' /\ search_inv p w' /\
             w_e w' < w_s w'.
Proof.
  revert w. induction fuel as [|fuel IH]; intros w Hinv Hw.
  - assert (Hse : w_e w < w_s w) by (unfold width in Hw; cbn in Hw; lia).
    exists w. cbn [while].
    replace (w_s w <=? w_e w) with false by (symmetry; apply Z.leb_gt; lia).
    auto.
  - cbn [while].
    destruct (Z.leb_spec (w_s w) (w_e w)) as [Hse|Hse]; [|exists w; auto].
    destruct (body_inv w Hinv Hse) as (w' & Hb & Hinv'). rewrite Hb. cbn [bind].
    apply IH; [exact Hinv'|].
    destruct Hinv as (Hok & _).
    destruct (body_shrinks ranks cars w w' Hok Hse Hb) as (_ & _ & Hw').
    rewrite Nat2Z.inj_succ, Z.pow_succ_r in Hw by lia. lia.
Qed.

Lemma initial_inv : search_inv p initial.
Proof.
  unfold search_inv, window_ok, initial, TIME_CEILING; cbn [w_s w_e w_ans].
  repeat split; lia.
Qed.

Lemma search_final :
  exists w, while budget ranks cars initial = Ok w /\ search_inv p w /\
            w_s w = w_e w + 1.
Proof.
  destruct (while_inv budget initial initial_inv) as (w & Hw & Hinv & Hse).
  { pose proof initial_ok as [_ H]. change (Z.of_nat budget) with 64. lia. }
  exists w. split; [exact Hw|split; [exact Hinv|]].
  destruct Hinv as ((_ & H & _) & _). lia.
Qed.

(** When the ceiling is feasible the search returns a feasible time
    whose predecessor is infeasible. *)
Lemma repairCars_threshold :
  p TIME_CEILING = true ->
  exists T, repairCars ranks cars = Ok T /\ 0 <= T <= TIME_CEILING /\
            p T = true /\ (0 < T -> p (T - 1) = false).
Proof.
  intros Hc. destruct search_final as (w & Hw & (Hok & Hlo & Hhi) & Hse).
  unfold repairCars. rewrite Hw. cbn [bind]. unfold return_ans.
  unfold window_ok in Hok.
  destruct (w_ans w) as [a|].
  - exists a. destruct Hhi as (Ha & HaC & Hpa).
    repeat split; try lia; [exact Hpa|].
    intros Hpos. destruct Hlo as [Hlo|Hlo]; [lia|].
    replace (a - 1) with (w_s w - 1) by lia. exact Hlo.
  - exfalso. assert (0 <= TIME_CEILING) by (unfold TIME_CEILING; lia).
    destruct Hlo as [Hlo|Hlo]; [lia|].
    replace (w_s w - 1) with TIME_CEILING in Hlo by lia. congruence.
Qed.

(** When no candidate time is feasible, [ans] is never assigned. *)
Lemma repairCars_unassigned :
  (forall t, 0 <= t <= TIME_CEILING -> p t = false) ->
  repairCars ranks cars = Fault UninitializedRead.
Proof.
  intros Hnone. destruct search_final as (w & Hw & (Hok & Hlo & Hhi) & Hse).
  unfold repairCars. rewrite Hw. cbn [bind]. unfold return_ans.
  destruct (w_ans w) as [a|]; [|reflexivity].
  exfalso. destruct Hhi as (Ha & HaC & Hpa). unfold window_ok in Hok.
  rewrite Hnone in Hpa by lia. discriminate.
Qed.
End Search.

(** ** Consequences for [check] *)

Lemma ceiling_valid_time (t : Z) : 0 <= t <= TIME_CEILING -> valid_time t.
Proof. unfold TIME_CEILING, valid_time, LL.max_signed. lia. Qed.

Lemma int_valid_requirement (cars : Z) : Int.in_range cars -> valid_requirement cars.
Proof.
  unfold Int.in_range, Int.min_signed, Int.max_signed, valid_requirement,
    LL.min_signed, LL.max_signed. lia.
Qed.

Lemma check_true_mono (ranks : list Z) (req t t' : Z) :
  Forall valid_rank ranks -> valid_requirement req ->
  0 <= t <= t' -> t' <= LL.max_signed ->
  check ranks req t = Ok true -> check ranks req t' = Ok true.
Proof.
  intros Hr Hreq Ht Ht'.
  rewrite !check_accumulated by (try assumption; unfold valid_time; lia).
  intros [= H]. f_equal. apply Z.leb_le in H. apply Z.leb_le.
  pose proof (accumulated_mono ranks t t' Hr Ht Ht'). lia.
Qed.

Lemma first_rank_valid_Forall (ranks : list Z) :
  Forall valid_rank ranks -> first_rank_valid ranks.
Proof. intros [|r rest Hr _]; [exact I|exact Hr]. Qed.

Lemma check_nonpositive (ranks : list Z) (req time : Z) :
  first_rank_valid ranks -> valid_requirement req -> valid_time time ->
  req <= 0 -> check ranks req time = Ok true.
Proof.
  intros Hr Hreq Ht H0. destruct ranks as [|r rest]; cbn [check].
  - f_equal. apply Z.leb_le. exact H0.
  - cbn [first_rank_valid] in Hr. unfold valid_rank in Hr.
    rewrite capacity_eq by (unfold valid_time in Ht; lia). cbn [bind].
    destruct (quot_range time r Ht ltac:(lia)) as [Hq Hb].
    pose proof (ll_sqrt_range (Z.quot time r)
                  ltac:(unfold valid_time, LL.max_signed in Ht; lia)) as Hc.
    unfold LL.sub. unfold valid_requirement, LL.min_signed, LL.max_signed in Hreq.
    rewrite wrap_in_range
      by (unfold LL.in_range, LL.min_signed, LL.max_signed; lia).
    replace (req - ll_sqrt (Z.quot time r) <=? 0) with true
      by (symmetry; apply Z.leb_le; lia).
    reflexivity.
Qed.

(** ** Consequences for [repairCars] *)

Lemma repairCars_nonpositive (ranks : list Z) (cars : Z) :
  first_rank_valid ranks -> Int.min_signed <= cars <= 0 ->
  repairCars ranks cars = Ok 0.
Proof.
  intros Hr Hc.
  assert (Hreq : valid_requirement cars).
  { apply int_valid_requirement.
    unfold Int.in_range, Int.min_signed, Int.max_signed in *. lia. }
  destruct (repairCars_threshold ranks cars (fun _ => true)) as (T & HT & Hb & _ & Hprev).
  - intros t Ht. apply check_nonpositive; try assumption; [apply ceiling_valid_time; exact Ht|lia].
  - reflexivity.
  - rewrite HT. f_equal.
    destruct (Z.eq_dec T 0) as [->|Hne]; [reflexivity|].
    specialize (Hprev ltac:(lia)). discriminate.
Qed.

Lemma repairCars_no_worker (cars : Z) :
  0 < cars -> repairCars [] cars = Fault UninitializedRead.
Proof.
  intros Hc. apply (repairCars_unassigned [] cars (fun _ => false)).
  - intros t _. cbn [check]. f_equal. apply Z.leb_gt. exact Hc.
  - reflexivity.
Qed.

Lemma repairCars_zero_rank (rest : list Z) (cars : Z) :
  repairCars (0 :: rest) cars = Fault DivisionByZero.
Proof. reflexivity. Qed.

Lemma initial_window_ok : window_ok initial.
Proof. exact (proj1 initial_ok). Qed.

(** The budgeted loop and the well-founded recursion compute the same
    result as soon as the budget covers the width of the window. *)
Lemma while_search_wf (ranks : list Z) (cars : Z) (w : window) (Hok : window_ok w) :
  forall fuel, width w < 2 ^ Z.of_nat fuel ->
  while fuel ranks cars w = search_wf ranks cars w Hok.
Proof.
  funelim (search_wf ranks cars w Hok); intros fuel Hw.
  - destruct fuel; cbn [while]; rewrite e; reflexivity.
  - pose proof (proj1 (Z.leb_le _ _) Hse) as Hle.
    destruct fuel as [|fuel].
    + unfold width in Hw. cbn in Hw. lia.
    + match goal with |- _ = ?r => set (rhs := r) end.
      cbn [while]. rewrite Hse, Hb. cbn [bind]. subst rhs.
      match goal with
      | IH : forall n : nat, _ -> while n ranks cars w' = _ |- _ => apply IH
      end.
      destruct (body_shrinks ranks cars w w' Hok Hle Hb) as (_ & _ & Hw').
      rewrite Nat2Z.inj_succ, Z.pow_succ_r in Hw by lia. lia.
  - pose proof (proj1 (Z.leb_le _ _) Hse) as Hle.
    destruct fuel as [|fuel].
    + unfold width in Hw. cbn in Hw. lia.
    + cbn [while]. rewrite Hse, e. reflexivity.
Qed.

(** * The claims of the specification *)

(** C1 (threshold correctness).  For a non-empty list of positive ranks
    and a positive requirement that the ceiling satisfies, [repairCars]
    returns the smallest feasible time [T]: [check] holds at [T], fails at
    [T - 1] when [T > 0], and fails at every earlier non-negative time. *)
Theorem repairCars_minimal_time (ranks : list Z) (cars : Z) :
  ranks <> [] -> Forall valid_rank ranks -> 1 <= cars <= Int.max_signed ->
  check ranks cars TIME_CEILING = Ok true ->
  exists T, repairCars ranks cars = Ok T /\ 0 <= T <= TIME_CEILING /\
            check ranks cars T = Ok true /\
            (0 < T -> check ranks cars (T - 1) = Ok false) /\
            (forall t, 0 <= t < T -> check ranks cars t = Ok false).
Proof.
  intros _ Hr Hc Hceil.
  assert (Hreq : valid_requirement cars).
  { apply int_valid_requirement. unfold Int.in_range, Int.min_signed, Int.max_signed in *. lia. }
  set (p := fun t => cars <=? accumulated ranks t).
  assert (Hp : forall t, 0 <= t <= TIME_CEILING -> check ranks cars t = Ok (p t)).
  { intros t Ht. apply check_accumulated; try assumption. apply ceiling_valid_time, Ht. }
  assert (HpC : p TIME_CEILING = true).
  { rewrite Hp in Hceil by (unfold TIME_CEILING; lia). congruence. }
  destruct (repairCars_threshold ranks cars p Hp HpC) as (T & HT & Hb & HpT & Hprev).
  exists T. split; [exact HT|]. split; [exact Hb|].
  split; [rewrite Hp, HpT by exact Hb; reflexivity|].
  split.
  - intros Hpos. rewrite Hp, (Hprev Hpos) by lia. reflexivity.
  - intros t Ht. rewrite Hp by lia. f_equal.
    destruct (p t) eqn:Hpt; [exfalso|reflexivity].
    specialize (Hprev ltac:(lia)).
    assert (Hm : check ranks cars (T - 1) = Ok true).
    { apply (check_true_mono ranks cars t (T - 1)); try assumption; try lia.
      - unfold TIME_CEILING, LL.max_signed in *. lia.
      - rewrite Hp, Hpt by lia. reflexivity. }
    rewrite Hp, Hprev in Hm by lia. discriminate.
Qed.

(** The statement of C1 at ranks [4, 2, 3, 1] and requirement [10]. *)
Lemma repairCars_minimal_time_witness :
  exists T, repairCars [4; 2; 3; 1] 10 = Ok T /\ 0 <= T <= TIME_CEILING /\
            check [4; 2; 3; 1] 10 T = Ok true /\
            (0 < T -> check [4; 2; 3; 1] 10 (T - 1) = Ok false) /\
            (forall t, 0 <= t < T -> check [4; 2; 3; 1] 10 t = Ok false).
Proof.
  apply (repairCars_minimal_time [4; 2; 3; 1] 10).
  - discriminate.
  - repeat constructor; unfold Int.max_signed; lia.
  - unfold Int.max_signed; lia.
  - vm_compute; reflexivity.
Defined.

(** C2 (monotonicity).  For positive ranks and a positive requirement,
    [check] at a time [t] implies [check] at every later time [t']. *)
Theorem check_monotone_in_time (ranks : list Z) (req t t' : Z) :
  Forall valid_rank ranks -> 1 <= req <= LL.max_signed ->
  0 <= t -> t <= t' -> t' <= LL.max_signed ->
  check ranks req t = Ok true -> check ranks req t' = Ok true.
Proof.
  intros Hr Hreq Ht Htt' Ht'. apply check_true_mono; try assumption; try lia.
  unfold valid_requirement, LL.min_signed in *. lia.
Qed.

(** The statement of C2 from time [16] to the largest [ll]. *)
Lemma check_monotone_in_time_witness :
  check [4; 2; 3; 1] 10 16 = Ok true /\ check [4; 2; 3; 1] 10 (2 ^ 63 - 1) = Ok true.
Proof.
  assert (H : check [4; 2; 3; 1] 10 16 = Ok true) by (vm_compute; reflexivity).
  split; [exact H|].
  apply (check_monotone_in_time [4; 2; 3; 1] 10 16 (2 ^ 63 - 1)).
  - repeat constructor; unfold Int.max_signed; lia.
  - unfold LL.max_signed; lia.
  - lia.
  - lia.
  - unfold LL.max_signed; lia.
  - exact H.
Defined.

(** C3 (exact capacity).  For a rank [r >= 1] and a candidate time in
    [0, 10^15], the capacity that [check] computes through [double] is the
    exact floor of the square root of the truncated quotient [time / r],
    and the quotient and the capacity are values of [ll]. *)
Theorem capacity_floor_sqrt (r time : Z) :
  valid_rank r -> 0 <= time <= TIME_CEILING ->
  let q := Z.quot time r in
  let c := Z.sqrt q in
  capacity time r = Ok c /\
  c * c <= q < (c + 1) * (c + 1) /\
  LL.in_range q /\ LL.in_range c.
Proof.
  intros Hr Ht q c. unfold valid_rank, TIME_CEILING in *.
  destruct (quot_range time r ltac:(unfold LL.max_signed; lia) ltac:(lia)) as [Hq Hb].
  fold q in Hq. rewrite <- Hq in Hb.
  pose proof (Z.sqrt_spec q ltac:(lia)) as Hs. cbv zeta in Hs. fold c in Hs.
  pose proof (Z.sqrt_nonneg q) as Hc0. fold c in Hc0.
  split.
  - rewrite capacity_eq by (unfold LL.max_signed; lia).
    fold q. f_equal. apply ll_sqrt_exact. lia.
  - split; [unfold Z.succ in Hs; lia|].
    unfold LL.in_range, LL.min_signed, LL.max_signed. split; [lia|nia].
Qed.

(** The statement of C3 at the ceiling, for rank [3]. *)
Lemma capacity_floor_sqrt_witness :
  capacity (10 ^ 15) 3 = Ok (Z.sqrt (Z.quot (10 ^ 15) 3)) /\
  Z.sqrt (Z.quot (10 ^ 15) 3) * Z.sqrt (Z.quot (10 ^ 15) 3) <= Z.quot (10 ^ 15) 3
    < (Z.sqrt (Z.quot (10 ^ 15) 3) + 1) * (Z.sqrt (Z.quot (10 ^ 15) 3) + 1) /\
  LL.in_range (Z.quot (10 ^ 15) 3) /\ LL.in_range (Z.sqrt (Z.quot (10 ^ 15) 3)).
Proof.
  apply (capacity_floor_sqrt 3 (10 ^ 15)).
  - unfold valid_rank, Int.max_signed; lia.
  - unfold TIME_CEILING; lia.
Defined.

(** C4, as stated, fails twice.  At the time [(2^26+1)^2 - 1], above the
    search ceiling, the double square root rounds up to [2^26+1]: [check]
    accepts the requirement [2^26+1] that the reference predicate rejects.
    At the requirement [-2^63] the subtraction [req -= c] leaves [ll] and
    wraps around: [check] rejects a requirement that the reference
    predicate accepts. *)
Lemma check_differs_from_reference :
  (Forall valid_rank [1] /\ valid_requirement 67108865 /\
   valid_time 4503599761588224 /\
   check [1] 67108865 4503599761588224 = Ok true /\
   feasible [1] 67108865 4503599761588224 = false) /\
  (Forall valid_rank [1] /\ valid_time 16 /\ LL.in_range (- 2 ^ 63) /\
   check [1] (- 2 ^ 63) 16 = Ok false /\
   feasible [1] (- 2 ^ 63) 16 = true).
Proof.
  split.
  - split; [repeat constructor; unfold Int.max_signed; lia|].
    split; [unfold valid_requirement, LL.min_signed, LL.max_signed; lia|].
    split; [unfold valid_time, LL.max_signed; lia|].
    split; vm_compute; reflexivity.
  - split; [repeat constructor; unfold Int.max_signed; lia|].
    split; [unfold valid_time, LL.max_signed; lia|].
    split; [unfold LL.in_range, LL.min_signed, LL.max_signed; lia|].
    split; vm_compute; reflexivity.
Qed.

(** C4 (amended).  For a list of positive ranks whose size is a value of
    [int], a requirement from which a capacity can be subtracted within
    [ll] (at least [-2^63 + 2^32], so every [int]) and a non-negative
    time, the early exit of [check] does not change the result: [check]
    returns what comparing the requirement with the capacities accumulated
    over all workers returns.  For times below [2^52], so for every
    candidate time up to the ceiling [10^15], these capacities are
    [floor(sqrt(time / rank))] and [check] returns the same boolean as the
    reference predicate. *)
Theorem check_early_exit_reference (ranks : list Z) (req time : Z) :
  Z.of_nat (length ranks) <= Int.max_signed ->
  Forall valid_rank ranks -> valid_requirement req -> valid_time time ->
  check ranks req time = Ok (req <=? accumulated ranks time) /\
  (time < 2 ^ 52 -> check ranks req time = Ok (feasible ranks req time)).
Proof.
  intros _ Hr Hreq Ht. split; [apply check_accumulated; assumption|].
  intros Hlt. rewrite check_accumulated by assumption.
  unfold feasible. rewrite accumulated_exact; [reflexivity|exact Hr|].
  unfold valid_time in Ht. lia.
Qed.

(** The amended statement of C4 at the ceiling, for ranks [5, 1, 8]. *)
Lemma check_early_exit_reference_witness :
  check [5; 1; 8] 6 TIME_CEILING = Ok (6 <=? accumulated [5; 1; 8] TIME_CEILING) /\
  check [5; 1; 8] 6 TIME_CEILING = Ok (feasible [5; 1; 8] 6 TIME_CEILING).
Proof.
  destruct (check_early_exit_reference [5; 1; 8] 6 TIME_CEILING) as [Hacc Href].
  - unfold Int.max_signed; cbn [length]; lia.
  - repeat constructor; unfold Int.max_signed; lia.
  - unfold valid_requirement, LL.min_signed, LL.max_signed; lia.
  - unfold valid_time, TIME_CEILING, LL.max_signed; lia.
  - split; [exact Hacc|apply Href; unfold TIME_CEILING; lia].
Defined.

(** C5, as stated, fails: called with the non-positive requirement [0] the
    solver reports nothing and returns the time [0]. *)
Lemma repairCars_accepts_requirement_zero :
  (0 <= 0)%Z /\ repairCars [4; 2; 3; 1] 0 = Ok 0.
Proof. split; [lia|vm_compute; reflexivity]. Qed.

(** C5 (amended).  The solver validates nothing and has no failure report
    of its own.  With a non-positive requirement and a rank list that is
    empty or starts with a positive rank it returns the time [0]; with an
    empty rank list and a positive requirement no candidate time is
    feasible and [ans] is returned without ever having been assigned; a
    rank [0] at the head of a list whose size is a value of [int] reaches
    the division [time / nums[i]], whatever the other ranks and the
    requirement are. *)
Theorem repairCars_validates_nothing
  (ranks rest : list Z) (cars cars' cars'' : Z) :
  first_rank_valid ranks -> Int.min_signed <= cars <= 0 -> 0 < cars' ->
  Z.of_nat (length (0 :: rest)) <= Int.max_signed ->
  repairCars ranks cars = Ok 0 /\
  repairCars [] cars' = Fault UninitializedRead /\
  repairCars (0 :: rest) cars'' = Fault DivisionByZero.
Proof.
  intros Hr Hc Hc' _. split; [|split].
  - apply repairCars_nonpositive; assumption.
  - apply repairCars_no_worker. exact Hc'.
  - apply repairCars_zero_rank.
Qed.

(** The amended statement of C5 at requirements [-3], [10] and [0]; the
    list headed by the rank [0] goes on with a negative rank. *)
Lemma repairCars_validates_nothing_witness :
  repairCars [4; 2; 3; 1] (-3) = Ok 0 /\
  repairCars [] 10 = Fault UninitializedRead /\
  repairCars [0; -4; 2] 0 = Fault DivisionByZero.
Proof.
  apply (repairCars_validates_nothing [4; 2; 3; 1] [-4; 2] (-3) 10 0).
  - unfold first_rank_valid, valid_rank, Int.max_signed; lia.
  - unfold Int.min_signed; lia.
  - lia.
  - unfold Int.max_signed; cbn [length]; lia.
Defined.

(** C6 (reference case).  For ranks [4, 2, 3, 1] and requirement [10],
    [repairCars] returns [16]; the exact capacity sum is at least [10] at
    time [16] and below [10] at time [15]. *)
Theorem repairCars_reference_case :
  repairCars [4; 2; 3; 1] 10 = Ok 16 /\
  10 <= Z.sqrt (Z.quot 16 4) + Z.sqrt (Z.quot 16 2)
        + Z.sqrt (Z.quot 16 3) + Z.sqrt (Z.quot 16 1) /\
  map (floor_sqrt_capacity 16) [4; 2; 3; 1] = [2; 2; 2; 4] /\
  total_capacity [4; 2; 3; 1] 16 = 10 /\
  feasible [4; 2; 3; 1] 10 16 = true /\
  total_capacity [4; 2; 3; 1] 15 = 8 /\
  feasible [4; 2; 3; 1] 10 15 = false.
Proof. repeat split; vm_compute; congruence. Qed.

(** C7 (further cases).  For ranks [1] and requirement [4], and for ranks
    [5, 1, 8] and requirement [6], [repairCars] returns [16]. *)
Theorem repairCars_single_worker_and_three_workers :
  repairCars [1] 4 = Ok 16 /\ repairCars [5; 1; 8] 6 = Ok 16.
Proof. split; vm_compute; reflexivity. Qed.

(** C8 (the ceiling is sufficient).  For a non-empty list of ranks in
    [1, 100] whose size is a value of [int] and a requirement in
    [1, 10^5], [check] holds at the ceiling [10^15]; the search therefore
    assigns [ans] and [repairCars] returns it: the search never ends
    without a feasible midpoint. *)
Theorem ceiling_is_feasible (ranks : list Z) (cars : Z) :
  ranks <> [] -> Z.of_nat (length ranks) <= Int.max_signed ->
  Forall (fun r => 1 <= r <= 100) ranks -> 1 <= cars <= 10 ^ 5 ->
  check ranks cars TIME_CEILING = Ok true /\
  exists w T, while budget ranks cars initial = Ok w /\ w_ans w = Some T /\
              repairCars ranks cars = Ok T.
Proof.
  intros Hne _ Hr Hc.
  assert (Hv : Forall valid_rank ranks).
  { eapply Forall_impl; [|exact Hr]. cbv beta. unfold valid_rank, Int.max_signed. lia. }
  assert (Hreq : valid_requirement cars).
  { unfold valid_requirement, LL.min_signed, LL.max_signed. lia. }
  set (p := fun t => cars <=? accumulated ranks t).
  assert (Hp : forall t, 0 <= t <= TIME_CEILING -> check ranks cars t = Ok (p t)).
  { intros t Ht. apply check_accumulated; try assumption. apply ceiling_valid_time, Ht. }
  assert (HpC : p TIME_CEILING = true).
  { unfold p. apply Z.leb_le.
    destruct ranks as [|r rest]; [congruence|].
    inversion Hr as [|? ? Hr1 Hrest]; subst.
    inversion Hv as [|? ? _ Hvrest]; subst.
    unfold accumulated. cbn [map fold_right]. fold (accumulated rest TIME_CEILING).
    pose proof (accumulated_nonneg rest TIME_CEILING Hvrest
                  (ceiling_valid_time TIME_CEILING ltac:(unfold TIME_CEILING; lia))) as Hacc.
    destruct (quot_range TIME_CEILING r
                ltac:(unfold TIME_CEILING, LL.max_signed; lia) ltac:(lia)) as [-> Hq].
    assert (Hlow : 10 ^ 13 <= TIME_CEILING / r).
    { apply Z.div_le_lower_bound; unfold TIME_CEILING; lia. }
    pose proof (ll_sqrt_mono (10 ^ 13) (TIME_CEILING / r) ltac:(lia)
                  ltac:(unfold TIME_CEILING in *; lia)) as Hm.
    change (ll_sqrt (10 ^ 13)) with 3162277 in Hm. lia. }
  split; [rewrite Hp, HpC by (unfold TIME_CEILING; lia); reflexivity|].
  destruct (search_final ranks cars p Hp) as (w & Hw & (Hok & Hlo & Hhi) & Hse).
  exists w. unfold repairCars. rewrite Hw. cbn [bind]. unfold return_ans.
  destruct (w_ans w) as [a|]; [exists a; auto|].
  exfalso. unfold window_ok, TIME_CEILING in *.
  destruct Hlo as [Hlo|Hlo]; [lia|].
  replace (w_s w - 1) with (10 ^ 15) in Hlo by lia. congruence.
Qed.

(** The statement of C8 at the largest rank and requirement. *)
Lemma ceiling_is_feasible_witness :
  check [100] (10 ^ 5) TIME_CEILING = Ok true /\
  exists w T, while budget [100] (10 ^ 5) initial = Ok w /\ w_ans w = Some T /\
              repairCars [100] (10 ^ 5) = Ok T.
Proof.
  apply (ceiling_is_feasible [100] (10 ^ 5)).
  - discriminate.
  - unfold Int.max_signed; cbn [length]; lia.
  - repeat constructor; lia.
  - lia.
Defined.

(** C9 (termination).  On every input the loop of [repairCars]
    terminates.  Every iteration picks [mid] inside the window, replaces
    [e] by [mid - 1] or [s] by [mid + 1] and leaves a strictly narrower
    window; the loop is therefore the well-founded recursion [search_wf]
    on the width of the window, 50 iterations are enough for the window
    [0 .. 10^15], and the budget of the model never runs out. *)
Theorem repairCars_terminates (ranks : list Z) (cars : Z) :
  (forall w w', window_ok w -> w_s w <= w_e w -> body ranks cars w = Ok w' ->
     w_s w <= midpoint w <= w_e w /\
     (w_s w' = w_s w /\ w_e w' = midpoint w - 1 \/
      w_s w' = midpoint w + 1 /\ w_e w' = w_e w) /\
     window_ok w' /\ 0 <= width w' < width w) /\
  (forall fuel, (50 <= fuel)%nat ->
     while fuel ranks cars initial =
     search_wf ranks cars initial initial_window_ok) /\
  search_wf ranks cars initial initial_window_ok <> Fault LoopBudget /\
  repairCars ranks cars =
    (w <- search_wf ranks cars initial initial_window_ok ;; return_ans w).
Proof.
  assert (Hfuel : forall fuel, (50 <= fuel)%nat ->
            while fuel ranks cars initial =
            search_wf ranks cars initial initial_window_ok).
  { intros fuel Hf. apply while_search_wf.
    pose proof initial_ok as [_ Hw].
    assert (2 ^ 50 <= 2 ^ Z.of_nat fuel) by (apply Z.pow_le_mono_r; lia). lia. }
  split; [|split; [exact Hfuel|split]].
  - intros w w' Hok Hse Hb.
    destruct (midpoint_eq w Hok Hse) as [_ Hmid].
    destruct (body_shrinks ranks cars w w' Hok Hse Hb) as (Hok' & H0 & H2).
    split; [exact Hmid|]. split.
    + destruct (body_step ranks cars w w' Hok Hse Hb) as [[_ ->]|[_ ->]];
        cbn [w_s w_e]; auto.
    + split; [exact Hok'|]. unfold width in *. lia.
  - rewrite <- (Hfuel 50%nat) by lia.
    pose proof initial_ok as [Hok Hw].
    apply (proj2 (while_budget ranks cars 50 0 initial Hok Hw)).
  - unfold repairCars. rewrite (Hfuel budget) by (unfold budget; lia). reflexivity.
Qed.

(** The statement of C9 at the first iteration on ranks [4, 2, 3, 1] and
    requirement [10], and for a budget of 50 iterations. *)
Lemma repairCars_terminates_witness :
  (w_s initial <= midpoint initial <= w_e initial /\
   0 <= width {| w_s := 0; w_e := 5 * 10 ^ 14 - 1; w_ans := Some (5 * 10 ^ 14) |}
     < width initial) /\
  while 50 [4; 2; 3; 1] 10 initial =
    search_wf [4; 2; 3; 1] 10 initial initial_window_ok.
Proof.
  destruct (repairCars_terminates [4; 2; 3; 1] 10) as (Hstep & Hfuel & _ & _).
  split.
  - destruct (Hstep initial
                {| w_s := 0; w_e := 5 * 10 ^ 14 - 1; w_ans := Some (5 * 10 ^ 14) |})
      as (Hmid & _ & _ & Hw).
    + exact initial_window_ok.
    + unfold initial, TIME_CEILING; cbn [w_s w_e]; lia.
    + vm_compute; reflexivity.
    + split; [exact Hmid|exact Hw].
  - apply Hfuel. lia.
Defined.

(** C10, as stated, fails.  A rank list may start with the rank [0]: the
    loop divides by it before it looks at the requirement, so [check]
    does not return true and [repairCars] does not return [0].  And at the
    requirement [-2^63] the subtraction [req -= c] leaves [ll] and wraps
    around to a positive value: [check] returns false. *)
Lemma nonpositive_requirement_fails :
  check [0] 0 5 = Fault DivisionByZero /\
  repairCars [0; 4; 2] 0 = Fault DivisionByZero /\
  (- 2 ^ 63 <= 0 /\ LL.in_range (- 2 ^ 63) /\
   check [1] (- 2 ^ 63) 16 = Ok false).
Proof.
  split; [vm_compute; reflexivity|].
  split; [vm_compute; reflexivity|].
  split; [lia|].
  split; [unfold LL.in_range, LL.min_signed, LL.max_signed; lia|].
  vm_compute; reflexivity.
Qed.

(** C10 (amended).  For a rank list that is empty or starts with a
    positive rank (no later rank is read), a non-negative time and a
    requirement [<= 0] from which a capacity can be subtracted within [ll]
    (at least [-2^63 + 2^32], so every [int]), [check] returns true;
    consequently [repairCars] with a non-positive requirement returns
    [0]. *)
Theorem nonpositive_requirement (ranks : list Z) (req time cars : Z) :
  first_rank_valid ranks -> valid_time time ->
  valid_requirement req -> req <= 0 ->
  Int.in_range cars -> cars <= 0 ->
  check ranks req time = Ok true /\ repairCars ranks cars = Ok 0.
Proof.
  intros Hr Ht Hreq H0 Hc Hc0. split.
  - apply check_nonpositive; assumption.
  - apply repairCars_nonpositive; [exact Hr|]. unfold Int.in_range in Hc. lia.
Qed.

(** The amended statement of C10 at requirement [-7]. *)
Lemma nonpositive_requirement_witness :
  check [4; 2; 3; 1] (-7) 12 = Ok true /\ repairCars [4; 2; 3; 1] (-7) = Ok 0.
Proof.
  apply (nonpositive_requirement [4; 2; 3; 1] (-7) 12 (-7)).
  - unfold first_rank_valid, valid_rank, Int.max_signed; lia.
  - unfold valid_time, LL.max_signed; lia.
  - unfold valid_requirement, LL.min_signed, LL.max_signed; lia.
  - lia.
  - unfold Int.in_range, Int.min_signed, Int.max_signed; lia.
  - lia.
Defined.

(** * Further properties of [check] and [repairCars] *)

(** ** The search on arbitrary input *)

(** What [while] has established when it ends normally, whatever [check]
    answers on the way. *)
Lemma while_sound (ranks : list Z) (cars : Z) (fuel : nat) (w w' : window) :
  window_ok w ->
  (w_s w = 0 \/ check ranks cars (w_s w - 1) = Ok false) ->
  (forall a, w_ans w = Some a ->
     a = w_e w + 1 /\ a <= TIME_CEILING /\ check ranks cars a = Ok true) ->
  while fuel ranks cars w = Ok w' ->
  window_ok w' /\ w_e w' < w_s w' /\
  (w_s w' = 0 \/ check ranks cars (w_s w' - 1) = Ok false) /\
  (forall a, w_ans w' = Some a ->
     a = w_e w' + 1 /\ a <= TIME_CEILING /\ check ranks cars a = Ok true).
Proof.
  revert w. induction fuel as [|fuel IH]; intros w Hok Hlo Hhi Hw; cbn [while] in Hw.
  - destruct (Z.leb_spec (w_s w) (w_e w)) as [Hse|Hse]; [discriminate|].
    injection Hw as <-. auto.
  - destruct (Z.leb_spec (w_s w) (w_e w)) as [Hse|Hse];
      [|injection Hw as <-; auto].
    destruct (body ranks cars w) as [w1|f] eqn:Hb; cbn [bind] in Hw; [|discriminate].
    destruct (midpoint_eq w Hok Hse) as [_ Hmid].
    destruct (body_shrinks ranks cars w w1 Hok Hse Hb) as (Hok1 & _ & _).
    apply (IH w1 Hok1); [| |exact Hw];
      destruct (body_step ranks cars w w1 Hok Hse Hb) as [[Hch ->]|[Hch ->]];
      cbn [w_s w_e w_ans].
    + exact Hlo.
    + right. rewrite Z.add_simpl_r. exact Hch.
    + intros a [= <-]. unfold window_ok in Hok. repeat split; try lia. exact Hch.
    + exact Hhi.
Qed.

Lemma repairCars_sound (ranks : list Z) (cars T : Z) :
  repairCars ranks cars = Ok T ->
  0 <= T <= TIME_CEILING /\ check ranks cars T = Ok true /\
  (0 < T -> check ranks cars (T - 1) = Ok false).
Proof.
  unfold repairCars. destruct (while budget ranks cars initial) as [w|f] eqn:Hw;
    cbn [bind]; [|discriminate].
  destruct (while_sound ranks cars budget initial w initial_window_ok)
    as (Hok & Hse & Hlo & Hhi); [left; reflexivity|intros a [=]|exact Hw|].
  unfold return_ans. destruct (w_ans w) as [a|]; [|discriminate].
  intros [= <-]. destruct (Hhi a eq_refl) as (Ha & HaC & Hch).
  unfold window_ok in Hok. repeat split; try lia; [exact Hch|].
  intros Hpos. destruct Hlo as [Hlo|Hlo]; [lia|].
  replace (a - 1) with (w_s w - 1) by lia. exact Hlo.
Qed.

(** [check] never divides [LLONG_MIN]: on a non-negative time the only
    faults are the division by zero and the conversion of a NaN. *)
Lemma check_fault_kind_nonneg (nums : list Z) (req time : Z) (f : fault) :
  0 <= time -> check nums req time = Fault f ->
  f = DivisionByZero \/ f = FloatToIntegerUB.
Proof.
  intros Ht. revert req. induction nums as [|r rest IH]; intros req; cbn [check];
    [discriminate|].
  unfold capacity, ll_div.
  destruct (r =? 0); [cbn; intros [= <-]; auto|].
  replace (time =? LL.min_signed) with false
    by (symmetry; apply Z.eqb_neq; unfold LL.min_signed; lia).
  cbn [andb bind].
  destruct (Double.to_ll _) as [c|f'] eqn:E; cbn [bind].
  - destruct (LL.sub req c <=? 0); [discriminate|apply IH].
  - intros [= <-]. unfold Double.to_ll in E.
    destruct (Double.sqrt _); try (injection E as <-; auto); try discriminate.
    destruct (LL.in_rangeb _); [discriminate|injection E as <-; auto].
Qed.

Lemma while_fault_kind (ranks : list Z) (cars : Z) (fuel : nat) (w : window) (f : fault) :
  window_ok w -> while fuel ranks cars w = Fault f ->
  f = DivisionByZero \/ f = FloatToIntegerUB \/ f = LoopBudget.
Proof.
  revert w. induction fuel as [|fuel IH]; intros w Hok Hw; cbn [while] in Hw.
  - destruct (w_s w <=? w_e w); [injection Hw as <-; auto|discriminate].
  - destruct (Z.leb_spec (w_s w) (w_e w)) as [Hse|Hse]; [|discriminate].
    destruct (body ranks cars w) as [w1|f1] eqn:Hb; cbn [bind] in Hw.
    + destruct (body_shrinks ranks cars w w1 Hok Hse Hb) as (Hok1 & _ & _).
      exact (IH w1 Hok1 Hw).
    + injection Hw as <-. unfold body in Hb.
      destruct (midpoint_eq w Hok Hse) as [_ Hmid].
      destruct (check ranks cars (midpoint w)) as [[|]|f2] eqn:E;
        cbn [bind] in Hb; try discriminate.
      injection Hb as <-.
      destruct (check_fault_kind_nonneg ranks cars (midpoint w) f2) as [->| ->]; auto.
      unfold window_ok in Hok. lia.
Qed.

(** The search depends on the input only through the answers of [check]
    on the candidate times. *)
Lemma while_ext (ranks ranks' : list Z) (cars cars' : Z) :
  (forall t, 0 <= t <= TIME_CEILING ->
     check ranks cars t = check ranks' cars' t) ->
  forall fuel w, window_ok w ->
  while fuel ranks cars w = while fuel ranks' cars' w.
Proof.
  intros Hext. induction fuel as [|fuel IH]; intros w Hok; cbn [while]; [reflexivity|].
  destruct (Z.leb_spec (w_s w) (w_e w)) as [Hse|Hse]; [|reflexivity].
  destruct (midpoint_eq w Hok Hse) as [_ Hmid].
  assert (Hb : body ranks cars w = body ranks' cars' w).
  { unfold body. rewrite Hext by (unfold window_ok in Hok; lia). reflexivity. }
  rewrite <- Hb. destruct (body ranks cars w) as [w1|f] eqn:E; cbn [bind]; [|reflexivity].
  apply IH. apply (body_shrinks ranks cars w w1 Hok Hse E).
Qed.

Lemma repairCars_ext (ranks ranks' : list Z) (cars cars' : Z) :
  (forall t, 0 <= t <= TIME_CEILING ->
     check ranks cars t = check ranks' cars' t) ->
  repairCars ranks cars = repairCars ranks' cars'.
Proof.
  intros Hext. unfold repairCars.
  rewrite (while_ext ranks ranks' cars cars' Hext budget initial initial_window_ok).
  reflexivity.
Qed.

(** ** The search on positive ranks *)

Lemma int_positive_valid_requirement (cars : Z) :
  LL.min_signed + 2 ^ 32 <= cars <= Int.max_signed -> valid_requirement cars.
Proof.
  unfold valid_requirement, Int.max_signed, LL.min_signed, LL.max_signed. lia.
Qed.

(** With positive ranks the search returns the least candidate time whose
    accumulated capacity reaches the requirement, as soon as there is
    one. *)
Lemma repairCars_least (ranks : list Z) (cars t0 : Z) :
  Forall valid_rank ranks -> valid_requirement cars ->
  0 <= t0 <= TIME_CEILING -> cars <= accumulated ranks t0 ->
  exists T, repairCars ranks cars = Ok T /\ 0 <= T <= t0 /\
            cars <= accumulated ranks T /\
            (0 < T -> accumulated ranks (T - 1) < cars).
Proof.
  intros Hr Hreq Ht0 Hacc.
  set (p := fun t => cars <=? accumulated ranks t).
  assert (Hp : forall t, 0 <= t <= TIME_CEILING -> check ranks cars t = Ok (p t)).
  { intros t Ht. apply check_accumulated; try assumption. apply ceiling_valid_time, Ht. }
  assert (Hmono : forall t t', 0 <= t <= t' -> t' <= TIME_CEILING ->
                               p t = true -> p t' = true).
  { intros t t' Ht Ht' H. unfold p in *. apply Z.leb_le in H. apply Z.leb_le.
    pose proof (accumulated_mono ranks t t' Hr Ht
                  ltac:(unfold TIME_CEILING, LL.max_signed in *; lia)). lia. }
  assert (HpC : p TIME_CEILING = true).
  { apply (Hmono t0); try lia. apply Z.leb_le. exact Hacc. }
  destruct (repairCars_threshold ranks cars p Hp HpC) as (T & HT & Hb & HpT & Hprev).
  exists T. split; [exact HT|].
  assert (HTt0 : T <= t0).
  { destruct (Z.le_gt_cases T t0) as [H|H]; [exact H|exfalso].
    specialize (Hprev ltac:(lia)).
    assert (Hm : p (T - 1) = true).
    { apply (Hmono t0); try lia. apply Z.leb_le. exact Hacc. }
    congruence. }
  split; [lia|]. split; [apply Z.leb_le; exact HpT|].
  intros Hpos. apply Z.leb_gt. exact (Hprev Hpos).
Qed.

(** The time with these two properties is the one returned. *)
Lemma repairCars_unique (ranks : list Z) (cars t0 : Z) :
  Forall valid_rank ranks -> valid_requirement cars ->
  0 <= t0 <= TIME_CEILING -> cars <= accumulated ranks t0 ->
  (0 < t0 -> accumulated ranks (t0 - 1) < cars) ->
  repairCars ranks cars = Ok t0.
Proof.
  intros Hr Hreq Ht0 Hacc Hprev.
  destruct (repairCars_least ranks cars t0 Hr Hreq Ht0 Hacc) as (T & HT & Hb & HaT & _).
  rewrite HT. f_equal.
  destruct (Z.eq_dec T t0) as [E|NE]; [exact E|exfalso].
  specialize (Hprev ltac:(lia)).
  pose proof (accumulated_mono ranks T (t0 - 1) Hr ltac:(lia)
                ltac:(unfold TIME_CEILING, LL.max_signed in *; lia)). lia.
Qed.

Lemma repairCars_accumulated (ranks : list Z) (cars T : Z) :
  Forall valid_rank ranks -> valid_requirement cars ->
  repairCars ranks cars = Ok T ->
  0 <= T <= TIME_CEILING /\ cars <= accumulated ranks T.
Proof.
  intros Hr Hreq HT. destruct (repairCars_sound ranks cars T HT) as (Hb & Hch & _).
  split; [exact Hb|].
  rewrite check_accumulated in Hch
    by (try assumption; apply ceiling_valid_time; exact Hb).
  injection Hch as Hch. apply Z.leb_le. exact Hch.
Qed.

Lemma accumulated_cons (r : Z) (ranks : list Z) (time : Z) :
  accumulated (r :: ranks) time = ll_sqrt (Z.quot time r) + accumulated ranks time.
Proof. reflexivity. Qed.

Lemma accumulated_app (pre rest : list Z) (time : Z) :
  accumulated (pre ++ rest) time = accumulated pre time + accumulated rest time.
Proof.
  induction pre as [|r pre IH]; [reflexivity|].
  cbn [app]. rewrite !accumulated_cons, IH. lia.
Qed.

Lemma worker_capacity_range (time r : Z) :
  valid_time time -> valid_rank r -> 0 <= ll_sqrt (Z.quot time r) <= 2 ^ 32.
Proof.
  intros Ht Hr. unfold valid_rank in Hr.
  destruct (quot_range time r Ht ltac:(lia)) as [-> Hq].
  apply ll_sqrt_range. unfold valid_time, LL.max_signed in Ht. lia.
Qed.

Lemma accumulated_In (ranks : list Z) (r time : Z) :
  Forall valid_rank ranks -> valid_time time -> In r ranks ->
  ll_sqrt (Z.quot time r) <= accumulated ranks time.
Proof.
  intros Hr Ht Hin. induction Hr as [|r0 rest Hr0 Hrest IH]; [contradiction|].
  rewrite accumulated_cons.
  pose proof (worker_capacity_range time r0 Ht Hr0).
  pose proof (accumulated_nonneg rest time Hrest Ht).
  destruct Hin as [->|Hin]; [lia|]. specialize (IH Hin). lia.
Qed.

(** ** [check] on concatenated rank lists *)

Lemma check_app (pre rest : list Z) (req time : Z) :
  Forall valid_rank pre -> valid_requirement req -> valid_time time ->
  check (pre ++ rest) req time =
    match pre with
    | [] => check rest req time
    | _ :: _ =>
        if req <=? accumulated pre time then Ok true
        else check rest (req - accumulated pre time) time
    end.
Proof.
  intros Hr. revert req. induction Hr as [|r pre Hr Hpre IH]; intros req Hreq Ht;
    [reflexivity|].
  cbn [app check]. unfold valid_rank in Hr.
  rewrite capacity_eq by (unfold valid_time in Ht; lia). cbn [bind].
  rewrite accumulated_cons.
  pose proof (worker_capacity_range time r Ht ltac:(unfold valid_rank; lia)) as Hc.
  pose proof (accumulated_nonneg pre time Hpre Ht) as Hacc.
  set (c := ll_sqrt (Z.quot time r)) in *.
  unfold LL.sub. unfold valid_requirement, LL.min_signed, LL.max_signed in Hreq.
  rewrite wrap_in_range
    by (unfold LL.in_range, LL.min_signed, LL.max_signed; lia).
  destruct (Z.leb_spec (req - c) 0) as [Hle|Hgt].
  - replace (req <=? c + accumulated pre time) with true
      by (symmetry; apply Z.leb_le; lia).
    reflexivity.
  - rewrite IH by (try assumption;
                   unfold valid_requirement, LL.min_signed, LL.max_signed; lia).
    destruct pre as [|r' pre'].
    + change (accumulated [] time) with 0.
      replace (req <=? c + 0) with false by (symmetry; apply Z.leb_gt; lia).
      f_equal. lia.
    + destruct (Z.leb_spec (req - c) (accumulated (r' :: pre') time)) as [H|H].
      * replace (req <=? c + accumulated (r' :: pre') time) with true
          by (symmetry; apply Z.leb_le; lia).
        reflexivity.
      * replace (req <=? c + accumulated (r' :: pre') time) with false
          by (symmetry; apply Z.leb_gt; lia).
        f_equal. lia.
Qed.

(** ** Negative ranks *)

Lemma binary_round_aux_opp (m e : Z) (l : location) :
  binary_round_aux Double.prec Double.emax true m e l =
  SFopp (binary_round_aux Double.prec Double.emax false m e l).
Proof.
  unfold binary_round_aux.
  destruct (shr_fexp Double.prec Double.emax m e l) as [mrs e1].
  destruct (shr_fexp Double.prec Double.emax _ e1 loc_Exact) as [mrs2 e2].
  destruct (shr_m mrs2); [reflexivity| |reflexivity].
  destruct (e2 <=? Double.emax - Double.prec); reflexivity.
Qed.

Lemma of_ll_opp (x : Z) : Double.of_ll (- x) = SFopp (Double.of_ll x) \/ x <= 0.
Proof.
  destruct x as [|p|p]; [right; lia| |right; lia]. left.
  unfold Double.of_ll, binary_normalize, binary_round. cbn [Z.opp].
  destruct (shl_align p 0 _) as [mz ez]. apply binary_round_aux_opp.
Qed.

(** The square root of a negative integer is a NaN, which has no [ll]
    value. *)
Lemma ll_sqrt_negative (x : Z) :
  - 2 ^ 63 < x < 0 ->
  Double.to_ll (Double.sqrt (Double.of_ll x)) = Fault FloatToIntegerUB.
Proof.
  intros Hx. replace x with (- (- x)) by lia.
  destruct (of_ll_opp (- x)) as [E|E]; [|lia]. rewrite E.
  destruct (of_ll_represents (- x) ltac:(lia)) as (mx & ex & -> & _).
  reflexivity.
Qed.

Lemma capacity_negative_rank (time rank : Z) :
  valid_time time -> Int.min_signed <= rank < 0 ->
  capacity time rank =
    if time <? - rank then Ok 0 else Fault FloatToIntegerUB.
Proof.
  intros Ht Hr. unfold valid_time, LL.max_signed, Int.min_signed in *.
  unfold capacity, ll_div.
  replace (rank =? 0) with false by (symmetry; apply Z.eqb_neq; lia).
  replace (time =? LL.min_signed) with false
    by (symmetry; apply Z.eqb_neq; unfold LL.min_signed; lia).
  cbn [andb bind].
  assert (Hq : Z.quot time rank = - (time / - rank)).
  { replace rank with (- - rank) at 1 by lia.
    rewrite Z.quot_opp_r by lia. rewrite Z.quot_div_nonneg by lia. reflexivity. }
  rewrite Hq.
  destruct (Z.ltb_spec time (- rank)) as [Hlt|Hge].
  - rewrite Z.div_small by lia. reflexivity.
  - assert (1 <= time / - rank <= time).
    { split; [apply Z.div_le_lower_bound; lia|apply Z.div_le_upper_bound; nia]. }
    apply ll_sqrt_negative. lia.
Qed.

(** ** Permuted rank lists *)

Lemma accumulated_perm (ranks ranks' : list Z) (time : Z) :
  Permutation ranks ranks' -> accumulated ranks time = accumulated ranks' time.
Proof.
  intros Hp. induction Hp as [|r l l' _ IH|r r' l|l l' l'' _ IH1 _ IH2].
  - reflexivity.
  - rewrite !accumulated_cons, IH. reflexivity.
  - rewrite !accumulated_cons. lia.
  - congruence.
Qed.

(** ** The double square root on the whole range of [ll] *)

Lemma round_even_error (x k : Z) :
  0 <= x -> 1 <= k ->
  2 * x - 2 ^ k <= 2 * (round_even x k * 2 ^ k) <= 2 * x + 2 ^ k.
Proof.
  intros Hx Hk. unfold round_even.
  assert (Ht : 0 < 2 ^ k) by (apply Z.pow_pos_nonneg; lia).
  pose proof (Z.div_mod x (2 ^ k) ltac:(lia)) as E.
  pose proof (Z.mod_pos_bound x (2 ^ k) Ht) as L.
  set (t := 2 ^ k) in *. set (m := x / t) in *. set (l := x mod t) in *.
  clearbody t m l.
  destruct (Z.ltb_spec t (2 * l)), (Z.eqb_spec t (2 * l)), (Z.odd m);
    cbn [orb andb]; nia.
Qed.

Lemma nearest_error (x : Z) :
  2 ^ 53 <= x ->
  2 * x - 2 ^ (digits x - 53) <= 2 * nearest x <= 2 * x + 2 ^ (digits x - 53).
Proof.
  intros Hx. unfold nearest.
  pose proof (digits_bounds x ltac:(lia)) as Hb.
  assert (Hd : 54 <= digits x).
  { destruct (Z.le_gt_cases 54 (digits x)) as [H|H]; [exact H|exfalso].
    assert (2 ^ digits x <= 2 ^ 53) by (apply Z.pow_le_mono_r; lia). lia. }
  replace (digits x - 53 <=? 0) with false by (symmetry; apply Z.leb_gt; lia).
  apply round_even_error; lia.
Qed.

Lemma sqrt_scale_upper (y n : Z) :
  0 < y -> 2 ^ (n - 1) <= y -> sqrt_scale y <= 53 - (n + 1) / 2.
Proof.
  intros Hy Hn. unfold sqrt_scale.
  assert (n <= digits y).
  { unfold digits. destruct (Z.le_gt_cases n 0) as [H|H].
    - pose proof (Z.log2_nonneg y). lia.
    - apply Z.log2_le_pow2 in Hn; lia. }
  Z.to_euclidean_division_equations; lia.
Qed.

(** The capacity may exceed the exact integer square root, by one at
    most, and never falls below it. *)
Lemma ll_sqrt_within_one (x : Z) :
  0 <= x < 2 ^ 63 -> Z.sqrt x <= ll_sqrt x <= Z.sqrt x + 1.
Proof.
  intros Hx. unfold ll_sqrt.
  destruct (Z.eqb_spec x 0) as [->|Hne]; [cbn; lia|].
  pose proof (Z.sqrt_spec x ltac:(lia)) as Hs. cbv zeta in Hs.
  pose proof (Z.sqrt_nonneg x) as Hc0.
  set (c := Z.sqrt x) in *. unfold Z.succ in Hs.
  assert (Hc1 : 1 <= c) by nia.
  pose proof (nearest_range x ltac:(lia)) as Hy.
  pose proof (sqrt_rn_nonneg (nearest x) ltac:(lia)) as Hnn.
  pose proof (sqrt_scale_range (nearest x) ltac:(lia)) as Hj.
  assert (Ht : 1 <= 2 ^ sqrt_scale (nearest x))
    by (apply (Z.pow_le_mono_r 2 0); lia).
  destruct (Z.lt_ge_cases x (2 ^ 53)) as [Hsmall|Hbig].
  - rewrite nearest_small in * by lia.
    set (t := 2 ^ sqrt_scale x) in *. split.
    + apply sqrt_rn_ge; try lia. fold t. nia.
    + apply Z.lt_succ_r, Z.nle_gt. intros H.
      apply sqrt_rn_ge in H; try lia. fold t in H. nia.
  - pose proof (nearest_error x Hbig) as He.
    pose proof (nearest_bounds x ltac:(lia)) as Hnb.
    pose proof (digits_bounds x ltac:(lia)) as Hb.
    pose proof (digits_lt_pow2 x 63 ltac:(lia) ltac:(lia)) as Hd63.
    assert (Hd54 : 54 <= digits x).
    { destruct (Z.le_gt_cases 54 (digits x)) as [H|H]; [exact H|exfalso].
      assert (2 ^ digits x <= 2 ^ 53) by (apply Z.pow_le_mono_r; lia). lia. }
    pose proof (sqrt_scale_upper (nearest x) (digits x) ltac:(lia) ltac:(lia)) as Hju.
    assert (Hc26 : 2 ^ 26 <= c) by nia.
    assert (Hk : 1 <= 2 ^ (digits x - 53) <= 2 ^ 10).
    { split; [apply (Z.pow_le_mono_r 2 0); lia|apply Z.pow_le_mono_r; lia]. }
    split.
    + apply sqrt_rn_ge; try lia.
      destruct (Z.le_gt_cases (c * c - nearest x) 0) as [Hneg|Hpos]; [nia|].
      (* the rounding error of the conversion, scaled, stays below [c] *)
      assert (Hprod : 2 * (c * c - nearest x) * 2 ^ sqrt_scale (nearest x) < 2 * c).
      { assert (Hbound : 2 ^ (digits x - 53) * 2 ^ (53 - (digits x + 1) / 2) < 2 * c).
        { assert (Hn : digits x = 54 \/ digits x = 55 \/ digits x = 56 \/
                       digits x = 57 \/ digits x = 58 \/ digits x = 59 \/
                       digits x = 60 \/ digits x = 61 \/ digits x = 62 \/
                       digits x = 63) by lia.
          assert (Hcx : 2 ^ (digits x - 1) < (c + 1) * (c + 1)) by lia.
          destruct Hn as [E|[E|[E|[E|[E|[E|[E|[E|[E|E]]]]]]]]];
            rewrite E in *;
            match goal with
            | |- 2 ^ ?a * 2 ^ ?b < _ =>
                let v := eval vm_compute in (2 ^ a * 2 ^ b) in
                change (2 ^ a * 2 ^ b) with v
            end; nia. }
        assert (2 ^ sqrt_scale (nearest x) <= 2 ^ (53 - (digits x + 1) / 2))
          by (apply Z.pow_le_mono_r; lia).
        assert (2 * (c * c - nearest x) <= 2 ^ (digits x - 53)) by lia.
        assert (2 * (c * c - nearest x) * 2 ^ sqrt_scale (nearest x)
                <= 2 ^ (digits x - 53) * 2 ^ (53 - (digits x + 1) / 2))
          by (apply Z.mul_le_mono_nonneg; lia).
        lia. }
      lia.
    + apply Z.lt_succ_r, Z.nle_gt. intros H.
      apply sqrt_rn_ge in H; try lia.
      set (t := 2 ^ sqrt_scale (nearest x)) in *.
      assert (c + 1 + 1 <= (c + 1 + 1) * (c + 1 + 1) - nearest x) by nia.
      assert ((c + 1 + 1) * 1 <= ((c + 1 + 1) * (c + 1 + 1) - nearest x) * t)
        by (apply Z.mul_le_mono_nonneg; lia).
      lia.
Qed.

(** ** Bounds on the accumulated capacity *)

Lemma worker_capacity_exact (time r : Z) :
  0 <= time <= TIME_CEILING -> valid_rank r ->
  ll_sqrt (Z.quot time r) = Z.sqrt (time / r) /\ 0 <= time / r <= time.
Proof.
  intros Ht Hr. unfold valid_rank, TIME_CEILING in *.
  destruct (quot_range time r ltac:(unfold LL.max_signed; lia) ltac:(lia)) as [-> Hq].
  split; [apply ll_sqrt_exact; lia|exact Hq].
Qed.

Lemma accumulated_at_most (ranks : list Z) (time : Z) :
  Forall valid_rank ranks -> 0 <= time <= TIME_CEILING ->
  accumulated ranks time <= 31622776 * Z.of_nat (length ranks).
Proof.
  intros Hr Ht. induction Hr as [|r rest Hr _ IH]; [cbn; lia|].
  rewrite accumulated_cons. cbn [length]. rewrite Nat2Z.inj_succ.
  destruct (worker_capacity_exact time r Ht Hr) as [-> Hq].
  assert (Z.sqrt (time / r) <= Z.sqrt TIME_CEILING) by (apply Z.sqrt_le_mono; lia).
  change (Z.sqrt TIME_CEILING) with 31622776 in *. lia.
Qed.

Lemma accumulated_at_most_slowest (ranks : list Z) (rmin time : Z) :
  1 <= rmin -> Forall (fun r => rmin <= r <= Int.max_signed) ranks ->
  0 <= time <= TIME_CEILING ->
  accumulated ranks time <= Z.of_nat (length ranks) * Z.sqrt (time / rmin).
Proof.
  intros Hmin Hr Ht. induction Hr as [|r rest Hr _ IH]; [cbn; lia|].
  rewrite accumulated_cons. cbn [length]. rewrite Nat2Z.inj_succ.
  destruct (worker_capacity_exact time r Ht ltac:(unfold valid_rank; lia)) as [-> Hq].
  assert (Z.sqrt (time / r) <= Z.sqrt (time / rmin)).
  { apply Z.sqrt_le_mono. apply Z.div_le_compat_l; lia. }
  lia.
Qed.

Lemma single_worker_threshold (r cars : Z) :
  1 <= r -> 1 <= cars ->
  Z.sqrt (r * cars * cars / r) = cars /\
  Z.sqrt ((r * cars * cars - 1) / r) < cars.
Proof.
  intros Hr Hc. split.
  - replace (r * cars * cars) with (cars * cars * r) by ring.
    rewrite Z.div_mul by lia. apply Z.sqrt_square. lia.
  - apply Z.sqrt_lt_square; [apply Z.div_pos; nia|lia|].
    apply Z.div_lt_upper_bound; nia.
Qed.

(** * Further verified properties *)

(** X1.  Whatever the input, a time that [repairCars] returns lies in
    [0, 10^15], is accepted by [check], and its predecessor, if there is
    one, is rejected by [check]. *)
Theorem repairCars_result_threshold (ranks : list Z) (cars T : Z) :
  repairCars ranks cars = Ok T ->
  0 <= T <= TIME_CEILING /\ check ranks cars T = Ok true /\
  (0 < T -> check ranks cars (T - 1) = Ok false).
Proof.
  intros HT. destruct (repairCars_sound ranks cars T HT) as (Hb & Hch & Hprev).
  split; [exact Hb|]. split; [exact Hch|exact Hprev].
Qed.

(** The statement of X1 for ranks [1, -100] and requirement [4], an input
    with a negative rank on which the solver still returns a time. *)
Lemma repairCars_result_threshold_witness :
  0 <= 16 <= TIME_CEILING /\ check [1; -100] 4 16 = Ok true /\
  (0 < 16 -> check [1; -100] 4 (16 - 1) = Ok false).
Proof.
  apply (repairCars_result_threshold [1; -100] 4 16).
  vm_compute; reflexivity.
Defined.

(** X2.  On every input [repairCars] either returns a time or stops in one
    of three ways: a division by zero, the conversion of a NaN, or the
    return of the unassigned [ans].  It never divides [LLONG_MIN] by [-1]
    and never exhausts the iteration budget. *)
Theorem repairCars_outcomes (ranks : list Z) (cars : Z) :
  (exists T, repairCars ranks cars = Ok T) \/
  repairCars ranks cars = Fault DivisionByZero \/
  repairCars ranks cars = Fault FloatToIntegerUB \/
  repairCars ranks cars = Fault UninitializedRead.
Proof.
  unfold repairCars.
  destruct (while budget ranks cars initial) as [w|f] eqn:Hw; cbn [bind].
  - unfold return_ans. destruct (w_ans w) as [a|]; [left; exists a; reflexivity|auto].
  - destruct (while_fault_kind ranks cars budget initial f initial_window_ok Hw)
      as [->|[->| ->]]; auto.
    exfalso. pose proof initial_ok as [Hok Hwd].
    apply (proj2 (while_budget ranks cars budget 0 initial Hok
                    ltac:(change (Z.of_nat budget) with 64; lia))).
    exact Hw.
Qed.

(** X3.  For positive ranks the outcome is decided at the ceiling: when
    [check] holds at [10^15] a time is returned, and when it fails there
    [ans] is never assigned. *)
Theorem repairCars_decided_at_ceiling (ranks : list Z) (cars : Z) :
  Forall valid_rank ranks -> valid_requirement cars ->
  (check ranks cars TIME_CEILING = Ok true /\
   exists T, repairCars ranks cars = Ok T) \/
  (check ranks cars TIME_CEILING = Ok false /\
   repairCars ranks cars = Fault UninitializedRead).
Proof.
  intros Hr Hreq.
  assert (HC : 0 <= TIME_CEILING <= TIME_CEILING) by (unfold TIME_CEILING; lia).
  rewrite check_accumulated by (try assumption; apply ceiling_valid_time, HC).
  destruct (Z.leb_spec cars (accumulated ranks TIME_CEILING)) as [Hle|Hgt].
  - left. split; [reflexivity|].
    destruct (repairCars_least ranks cars TIME_CEILING Hr Hreq HC Hle) as (T & HT & _).
    exists T. exact HT.
  - right. split; [reflexivity|].
    apply (repairCars_unassigned ranks cars (fun _ => false)); [|reflexivity].
    intros t Ht. rewrite check_accumulated
      by (try assumption; apply ceiling_valid_time, Ht).
    f_equal. apply Z.leb_gt.
    pose proof (accumulated_mono ranks t TIME_CEILING Hr ltac:(lia)
                  ltac:(unfold TIME_CEILING, LL.max_signed; lia)). lia.
Qed.

(** The statement of X3 for one worker of rank [1]: the largest [int]
    requirement is out of reach of the ceiling. *)
Lemma repairCars_decided_at_ceiling_witness :
  (check [1] Int.max_signed TIME_CEILING = Ok true /\
   exists T, repairCars [1] Int.max_signed = Ok T) \/
  (check [1] Int.max_signed TIME_CEILING = Ok false /\
   repairCars [1] Int.max_signed = Fault UninitializedRead).
Proof.
  apply (repairCars_decided_at_ceiling [1] Int.max_signed).
  - repeat constructor; unfold Int.max_signed; lia.
  - unfold valid_requirement, Int.max_signed, LL.min_signed, LL.max_signed; lia.
Defined.

(** X4.  A worker repairs at most [31622776] cars within the ceiling
    [10^15]: with [n] workers of positive rank, every requirement above
    [31622776 * n] makes [repairCars] return the unassigned [ans]. *)
Theorem repairCars_ceiling_too_low (ranks : list Z) (cars : Z) :
  Forall valid_rank ranks ->
  31622776 * Z.of_nat (length ranks) < cars -> cars <= Int.max_signed ->
  repairCars ranks cars = Fault UninitializedRead.
Proof.
  intros Hr Hlo Hhi.
  assert (Hreq : valid_requirement cars)
    by (apply int_positive_valid_requirement; unfold LL.min_signed; lia).
  apply (repairCars_unassigned ranks cars (fun _ => false)); [|reflexivity].
  intros t Ht. rewrite check_accumulated
    by (try assumption; apply ceiling_valid_time, Ht).
  f_equal. apply Z.leb_gt.
  pose proof (accumulated_at_most ranks t Hr Ht). lia.
Qed.

(** The statement of X4 for three workers. *)
Lemma repairCars_ceiling_too_low_witness :
  repairCars [5; 1; 8] 94868329 = Fault UninitializedRead.
Proof.
  apply (repairCars_ceiling_too_low [5; 1; 8] 94868329).
  - repeat constructor; unfold Int.max_signed; lia.
  - cbn [length]; lia.
  - unfold Int.max_signed; lia.
Defined.

(** X5.  [check] on a concatenation whose size is a value of [int]: the
    workers of a non-empty first part decide alone when their accumulated
    capacity reaches the requirement, and otherwise hand the remaining
    requirement to the second part. *)
Theorem check_concatenation (pre rest : list Z) (req time : Z) :
  Z.of_nat (length (pre ++ rest)) <= Int.max_signed ->
  Forall valid_rank pre -> valid_requirement req -> valid_time time ->
  check (pre ++ rest) req time =
    match pre with
    | [] => check rest req time
    | _ :: _ =>
        if req <=? accumulated pre time then Ok true
        else check rest (req - accumulated pre time) time
    end.
Proof.
  intros _ Hr Hreq Ht. rewrite (check_app pre rest req time Hr Hreq Ht).
  reflexivity.
Qed.

(** The statement of X5 at time [16], splitting [4, 2, 3, 1] in two. *)
Lemma check_concatenation_witness :
  check ([4; 2] ++ [3; 1]) 10 16 =
    if 10 <=? accumulated [4; 2] 16 then Ok true
    else check [3; 1] (10 - accumulated [4; 2] 16) 16.
Proof.
  apply (check_concatenation [4; 2] [3; 1] 10 16).
  - unfold Int.max_signed; cbn [app length]; lia.
  - repeat constructor; unfold Int.max_signed; lia.
  - unfold valid_requirement, LL.min_signed, LL.max_signed; lia.
  - unfold valid_time, LL.max_signed; lia.
Defined.

(** X6.  In a list whose size is a value of [int], a rank [0] matters
    exactly when the loop reaches it: after a non-empty part of positive
    ranks whose capacity reaches the requirement [check] returns true
    without reading it, and in every other case [check] divides by
    zero. *)
Theorem check_zero_rank (pre rest : list Z) (req time : Z) :
  Z.of_nat (length (pre ++ 0 :: rest)) <= Int.max_signed ->
  Forall valid_rank pre -> valid_requirement req -> valid_time time ->
  check (pre ++ 0 :: rest) req time =
    match pre with
    | [] => Fault DivisionByZero
    | _ :: _ =>
        if req <=? accumulated pre time then Ok true
        else Fault DivisionByZero
    end.
Proof.
  intros _ Hr Hreq Ht. rewrite check_app by assumption.
  destruct pre; [reflexivity|]. destruct (_ <=? _); reflexivity.
Qed.

(** The statement of X6 at time [16]: two cars are repaired before the
    rank [0] is read, three are not. *)
Lemma check_zero_rank_witness :
  check ([4] ++ 0 :: [1]) 2 16 = Ok true /\
  check ([4] ++ 0 :: [1]) 3 16 = Fault DivisionByZero.
Proof.
  split.
  - change (Ok true) with (if 2 <=? accumulated [4] 16 then Ok true
                           else @Fault bool DivisionByZero).
    apply (check_zero_rank [4] [1] 2 16).
    + unfold Int.max_signed; cbn [app length]; lia.
    + repeat constructor; unfold Int.max_signed; lia.
    + unfold valid_requirement, LL.min_signed, LL.max_signed; lia.
    + unfold valid_time, LL.max_signed; lia.
  - change (Fault DivisionByZero)
      with (if 3 <=? accumulated [4] 16 then Ok true
            else @Fault bool DivisionByZero).
    apply (check_zero_rank [4] [1] 3 16).
    + unfold Int.max_signed; cbn [app length]; lia.
    + repeat constructor; unfold Int.max_signed; lia.
    + unfold valid_requirement, LL.min_signed, LL.max_signed; lia.
    + unfold valid_time, LL.max_signed; lia.
Defined.

(** X7.  A negative rank contributes capacity [0] while the time is below
    its absolute value; from then on the quotient is negative, its square
    root is a NaN and the conversion to [ll] is undefined.  [repairCars]
    on a list that starts with a negative rank, and whose size is a value
    of [int], stops there at its first iteration. *)
Theorem negative_rank (rank time cars : Z) (rest : list Z) :
  Int.min_signed <= rank < 0 -> valid_time time ->
  Z.of_nat (length (rank :: rest)) <= Int.max_signed ->
  capacity time rank = (if time <? - rank then Ok 0 else Fault FloatToIntegerUB) /\
  repairCars (rank :: rest) cars = Fault FloatToIntegerUB.
Proof.
  intros Hr Ht _. split; [apply capacity_negative_rank; assumption|].
  assert (Hb : body (rank :: rest) cars initial = Fault FloatToIntegerUB).
  { unfold body. change (midpoint initial) with 500000000000000.
    cbn [check]. rewrite capacity_negative_rank
      by (try assumption; unfold valid_time, LL.max_signed; lia).
    replace (500000000000000 <? - rank) with false
      by (symmetry; apply Z.ltb_ge; unfold Int.min_signed in Hr; lia).
    reflexivity. }
  unfold repairCars. change budget with (S 63). cbn [while].
  change (w_s initial <=? w_e initial) with true. cbv iota.
  rewrite Hb. reflexivity.
Qed.

(** The statement of X7 for rank [-5] at time [12]. *)
Lemma negative_rank_witness :
  capacity 12 (-5) = (if 12 <? - -5 then Ok 0 else Fault FloatToIntegerUB) /\
  repairCars [-5; 3] 4 = Fault FloatToIntegerUB.
Proof.
  apply (negative_rank (-5) 12 4 [3]).
  - unfold Int.min_signed; lia.
  - unfold valid_time, LL.max_signed; lia.
  - unfold Int.max_signed; cbn [length]; lia.
Defined.

(** X8.  The order of the workers does not matter: on a permutation of a
    list of positive ranks whose size is a value of [int], [check] answers
    the same at every time and [repairCars] returns the same result. *)
Theorem repairCars_permutation (ranks ranks' : list Z) (cars : Z) :
  Permutation ranks ranks' -> Z.of_nat (length ranks) <= Int.max_signed ->
  Forall valid_rank ranks ->
  valid_requirement cars ->
  (forall t, valid_time t -> check ranks cars t = check ranks' cars t) /\
  repairCars ranks cars = repairCars ranks' cars.
Proof.
  intros Hp _ Hr Hreq.
  assert (Hr' : Forall valid_rank ranks') by (eapply Permutation_Forall; eassumption).
  assert (Hch : forall t, valid_time t -> check ranks cars t = check ranks' cars t).
  { intros t Ht. rewrite !check_accumulated by assumption.
    rewrite (accumulated_perm ranks ranks' t Hp). reflexivity. }
  split; [exact Hch|].
  apply repairCars_ext. intros t Ht. apply Hch, ceiling_valid_time, Ht.
Qed.

(** The statement of X8 for [4, 2, 3, 1] and its reversal. *)
Lemma repairCars_permutation_witness :
  (forall t, valid_time t -> check [4; 2; 3; 1] 10 t = check [1; 3; 2; 4] 10 t) /\
  repairCars [4; 2; 3; 1] 10 = repairCars [1; 3; 2; 4] 10.
Proof.
  apply (repairCars_permutation [4; 2; 3; 1] [1; 3; 2; 4] 10).
  - change [1; 3; 2; 4] with (rev [4; 2; 3; 1]). apply Permutation_rev.
  - unfold Int.max_signed; cbn [length]; lia.
  - repeat constructor; unfold Int.max_signed; lia.
  - unfold valid_requirement, LL.min_signed, LL.max_signed; lia.
Defined.

(** X9.  The returned time grows with the requirement: when [repairCars]
    returns a time for [cars'] it returns one, no later, for every
    smaller requirement. *)
Theorem repairCars_monotone_in_cars (ranks : list Z) (cars cars' T' : Z) :
  Forall valid_rank ranks -> valid_requirement cars -> valid_requirement cars' ->
  cars <= cars' -> repairCars ranks cars' = Ok T' ->
  exists T, repairCars ranks cars = Ok T /\ T <= T'.
Proof.
  intros Hr Hreq Hreq' Hle HT'.
  destruct (repairCars_accumulated ranks cars' T' Hr Hreq' HT') as (Hb & Hacc).
  destruct (repairCars_least ranks cars T' Hr Hreq Hb ltac:(lia)) as (T & HT & HTb & _).
  exists T. split; [exact HT|lia].
Qed.

(** The statement of X9 for requirements [6] and [10]. *)
Lemma repairCars_monotone_in_cars_witness :
  exists T, repairCars [4; 2; 3; 1] 6 = Ok T /\ T <= 16.
Proof.
  apply (repairCars_monotone_in_cars [4; 2; 3; 1] 6 10 16).
  - repeat constructor; unfold Int.max_signed; lia.
  - unfold valid_requirement, LL.min_signed, LL.max_signed; lia.
  - unfold valid_requirement, LL.min_signed, LL.max_signed; lia.
  - lia.
  - vm_compute; reflexivity.
Defined.

(** X10.  One more worker never delays the repair: when [repairCars]
    returns a time for a list of positive ranks, it returns one, no
    later, for the list with a further worker, as long as the size of the
    longer list is a value of [int]. *)
Theorem repairCars_extra_worker (ranks : list Z) (r cars T : Z) :
  Z.of_nat (length (r :: ranks)) <= Int.max_signed ->
  Forall valid_rank ranks -> valid_rank r -> valid_requirement cars ->
  repairCars ranks cars = Ok T ->
  exists T', repairCars (r :: ranks) cars = Ok T' /\ T' <= T.
Proof.
  intros _ Hr Hr0 Hreq HT.
  destruct (repairCars_accumulated ranks cars T Hr Hreq HT) as (Hb & Hacc).
  pose proof (worker_capacity_range T r (ceiling_valid_time T Hb) Hr0) as Hc.
  destruct (repairCars_least (r :: ranks) cars T) as (T' & HT' & HTb & _);
    try assumption.
  - constructor; assumption.
  - rewrite accumulated_cons. lia.
  - exists T'. split; [exact HT'|lia].
Qed.

(** The statement of X10: a worker of rank [1] joins the ranks
    [4, 2, 3]. *)
Lemma repairCars_extra_worker_witness :
  exists T', repairCars [1; 4; 2; 3] 10 = Ok T' /\ T' <= 36.
Proof.
  apply (repairCars_extra_worker [4; 2; 3] 1 10 36).
  - unfold Int.max_signed; cbn [length]; lia.
  - repeat constructor; unfold Int.max_signed; lia.
  - unfold valid_rank, Int.max_signed; lia.
  - unfold valid_requirement, LL.min_signed, LL.max_signed; lia.
  - vm_compute; reflexivity.
Defined.

(** X11.  A single worker of rank [r] needs exactly [r * cars^2]: this is
    what [repairCars] returns whenever it does not exceed the ceiling. *)
Theorem repairCars_single_worker (r cars : Z) :
  valid_rank r -> 1 <= cars -> r * cars * cars <= TIME_CEILING ->
  repairCars [r] cars = Ok (r * cars * cars).
Proof.
  intros Hr Hc HC.
  assert (Hr1 : 1 <= r) by (unfold valid_rank in Hr; lia).
  assert (Hpos : 1 <= r * cars * cars) by nia.
  assert (Hcars : cars <= TIME_CEILING) by nia.
  destruct (single_worker_threshold r cars Hr1 Hc) as [Hat Hbelow].
  apply repairCars_unique.
  - constructor; [exact Hr|constructor].
  - unfold valid_requirement, TIME_CEILING, LL.min_signed, LL.max_signed in *. lia.
  - lia.
  - rewrite accumulated_cons. change (accumulated [] _) with 0.
    destruct (worker_capacity_exact (r * cars * cars) r ltac:(lia) Hr) as [-> _].
    lia.
  - intros _. rewrite accumulated_cons. change (accumulated [] _) with 0.
    destruct (worker_capacity_exact (r * cars * cars - 1) r ltac:(lia) Hr) as [-> _].
    lia.
Qed.

(** The statement of X11 for rank [100] and [3162277] cars, the largest
    requirement that fits under the ceiling at that rank. *)
Lemma repairCars_single_worker_witness :
  repairCars [100] 3162277 = Ok (100 * 3162277 * 3162277).
Proof.
  apply (repairCars_single_worker 100 3162277).
  - unfold valid_rank, Int.max_signed; lia.
  - lia.
  - unfold TIME_CEILING; lia.
Defined.

(** X12.  Any one worker bounds the result from above: with a worker of
    rank [r] among positive ranks, in a list whose size is a value of
    [int], [repairCars] returns a time of at most [r * cars^2] when that
    is within the ceiling. *)
Theorem repairCars_upper_bound (ranks : list Z) (r cars : Z) :
  Z.of_nat (length ranks) <= Int.max_signed ->
  Forall valid_rank ranks -> In r ranks -> 1 <= cars ->
  r * cars * cars <= TIME_CEILING ->
  exists T, repairCars ranks cars = Ok T /\ T <= r * cars * cars.
Proof.
  intros _ Hr Hin Hc HC.
  assert (Hvr : valid_rank r) by (rewrite Forall_forall in Hr; apply Hr, Hin).
  assert (Hr1 : 1 <= r) by (unfold valid_rank in Hvr; lia).
  assert (Hpos : 1 <= r * cars * cars) by nia.
  assert (Hcars : cars <= TIME_CEILING) by nia.
  destruct (single_worker_threshold r cars Hr1 Hc) as [Hat _].
  destruct (repairCars_least ranks cars (r * cars * cars)) as (T & HT & HTb & _);
    try assumption; try lia.
  - unfold valid_requirement, TIME_CEILING, LL.min_signed, LL.max_signed in *. lia.
  - pose proof (accumulated_In ranks r (r * cars * cars) Hr
                  (ceiling_valid_time (r * cars * cars) ltac:(lia)) Hin) as Hge.
    destruct (worker_capacity_exact (r * cars * cars) r ltac:(lia) Hvr) as [E _].
    rewrite E in Hge. lia.
  - exists T. split; [exact HT|lia].
Qed.

(** The statement of X12 for the worker of rank [1] among [4, 2, 3, 1]. *)
Lemma repairCars_upper_bound_witness :
  exists T, repairCars [4; 2; 3; 1] 10 = Ok T /\ T <= 1 * 10 * 10.
Proof.
  apply (repairCars_upper_bound [4; 2; 3; 1] 1 10).
  - unfold Int.max_signed; cbn [length]; lia.
  - repeat constructor; unfold Int.max_signed; lia.
  - cbn [In]; auto.
  - lia.
  - unfold TIME_CEILING; lia.
Defined.

(** X13.  On every non-negative [ll] time and positive rank the capacity
    that [check] computes through [double] is the exact integer square
    root of the quotient or that root plus one, never less and never
    more. *)
Theorem capacity_within_one (time r : Z) :
  valid_time time -> valid_rank r ->
  exists c, capacity time r = Ok c /\
            Z.sqrt (Z.quot time r) <= c <= Z.sqrt (Z.quot time r) + 1.
Proof.
  intros Ht Hr. unfold valid_rank in Hr.
  exists (ll_sqrt (Z.quot time r)). split.
  - apply capacity_eq; [exact Ht|lia].
  - apply ll_sqrt_within_one.
    destruct (quot_range time r Ht ltac:(lia)) as [-> Hq].
    unfold valid_time, LL.max_signed in Ht. lia.
Qed.

(** The statement of X13 at the largest [ll] time. *)
Lemma capacity_within_one_witness :
  exists c, capacity LL.max_signed 1 = Ok c /\
            Z.sqrt (Z.quot LL.max_signed 1) <= c <= Z.sqrt (Z.quot LL.max_signed 1) + 1.
Proof.
  apply (capacity_within_one LL.max_signed 1).
  - unfold valid_time, LL.max_signed; lia.
  - unfold valid_rank, Int.max_signed; lia.
Defined.

(** X14.  The fastest worker bounds the result from below: when all [n]
    ranks are at least [rmin] and [repairCars] returns [T] for a positive
    requirement, then [rmin * cars^2 <= n^2 * T]. *)
Theorem repairCars_lower_bound (ranks : list Z) (rmin cars T : Z) :
  1 <= rmin -> Forall (fun r => rmin <= r <= Int.max_signed) ranks ->
  1 <= cars <= Int.max_signed -> repairCars ranks cars = Ok T ->
  rmin * cars * cars <= Z.of_nat (length ranks) * Z.of_nat (length ranks) * T.
Proof.
  intros Hmin Hr Hc HT.
  assert (Hv : Forall valid_rank ranks).
  { eapply Forall_impl; [|exact Hr]. cbv beta. unfold valid_rank. lia. }
  assert (Hreq : valid_requirement cars)
    by (apply int_positive_valid_requirement; unfold LL.min_signed; lia).
  destruct (repairCars_accumulated ranks cars T Hv Hreq HT) as (Hb & Hacc).
  pose proof (accumulated_at_most_slowest ranks rmin T Hmin Hr Hb) as Hup.
  assert (Hq : 0 <= T / rmin) by (apply Z.div_pos; lia).
  pose proof (Z.sqrt_spec (T / rmin) Hq) as Hs. cbv zeta in Hs.
  pose proof (Z.sqrt_nonneg (T / rmin)) as Hs0.
  pose proof (Z.mul_div_le T rmin ltac:(lia)) as Hmd.
  set (s := Z.sqrt (T / rmin)) in *. set (n := Z.of_nat (length ranks)) in *.
  assert (Hn : 0 <= n) by (unfold n; lia).
  assert (Hcn : cars * cars <= (n * s) * (n * s)) by nia.
  assert (Hrs : rmin * (s * s) <= T) by nia.
  assert (rmin * (cars * cars) <= rmin * ((n * s) * (n * s)))
    by (apply Z.mul_le_mono_nonneg_l; lia).
  assert (n * n * (rmin * (s * s)) <= n * n * T)
    by (apply Z.mul_le_mono_nonneg_l; nia).
  nia.
Qed.

(** The statement of X14 for [4, 2, 3, 1], where [rmin = 1] and
    [T = 16]. *)
Lemma repairCars_lower_bound_witness :
  1 * 10 * 10 <= Z.of_nat (length [4; 2; 3; 1]) * Z.of_nat (length [4; 2; 3; 1]) * 16.
Proof.
  apply (repairCars_lower_bound [4; 2; 3; 1] 1 10 16).
  - lia.
  - repeat constructor; unfold Int.max_signed; lia.
  - unfold Int.max_signed; lia.
  - vm_compute; reflexivity.
Defined.

(** ** The size of the vector *)

(** For a vector whose size is a value of [int] the loop bound [n] is the
    length of the list and [check] is the function of the source. *)
Lemma check_n_check (nums : list Z) (req time : Z) :
  Z.of_nat (length nums) <= Int.max_signed ->
  check_n nums req time = check nums req time.
Proof.
  intros Hlen. unfold check_n, Int.wrap. unfold Int.max_signed in Hlen.
  rewrite Z.mod_small by lia.
  replace (Z.of_nat (length nums) + 2 ^ 31 - 2 ^ 31) with (Z.of_nat (length nums))
    by lia.
  rewrite Nat2Z.id, firstn_all. reflexivity.
Qed.

(** When the size wraps around to [n <= 0] the loop is skipped. *)
Lemma check_n_skipped (nums : list Z) (req time : Z) :
  Int.wrap (Z.of_nat (length nums)) <= 0 ->
  check_n nums req time = Ok (req <=? 0).
Proof.
  intros Hn. unfold check_n.
  destruct (Int.wrap (Z.of_nat (length nums))) as [|p|p]; try lia; reflexivity.
Qed.
